(** * typr-io, Linux uinput backend: a model of [Sender] and its properties

    The development follows [src/sender/sender_uinput.cpp].  The sender is
    modelled by explicit state passing: a [Sender] owns an optional [Impl]
    (the [std::unique_ptr<Impl> m_impl], empty after a move), and every
    method runs against a [World] that records the system calls made on the
    uinput file descriptor.  Log statements ([TYPR_IO_LOG_*]) have no effect
    on the sender or on the device and are left out. *)

From Stdlib Require Import ZArith Lia.
From stdpp Require Import base decidable countable finite gmap strings list.

Local Open Scope Z_scope.

(** ** The logical key and modifier model *)

(** Modelled from the spec: the enumeration [Key] is declared in
    [typr-io/core.hpp], which is not part of the sources at hand.  The
    constructors are the [Key::] enumerators that [sender_uinput.cpp] names,
    together with the sentinel [Key::Unknown] of the C API (value [0]). *)
Module Key.
Inductive t : Set :=
  | Unknown | A | B | C | D | E | F | G | H | I | J | K | L | M | N | O | P |
  Q | R | S | T | U | V | W | X | Y | Z | Num0 | Num1 | Num2 | Num3 | Num4 |
  Num5 | Num6 | Num7 | Num8 | Num9 | F1 | F2 | F3 | F4 | F5 | F6 | F7 | F8 |
  F9 | F10 | F11 | F12 | F13 | F14 | F15 | F16 | F17 | F18 | F19 | F20 |
  Enter | Escape | Backspace | Tab | Space | Left | Right | Up | Down |
  Home | End | PageUp | PageDown | Delete | Insert | Numpad0 | Numpad1 |
  Numpad2 | Numpad3 | Numpad4 | Numpad5 | Numpad6 | Numpad7 | Numpad8 |
  Numpad9 | NumpadDivide | NumpadMultiply | NumpadMinus | NumpadPlus |
  NumpadEnter | NumpadDecimal | ShiftLeft | ShiftRight | CtrlLeft |
  CtrlRight | AltLeft | AltRight | SuperLeft | SuperRight | CapsLock |
  NumLock | Menu | Mute | VolumeDown | VolumeUp | MediaPlayPause |
  MediaStop | MediaNext | MediaPrevious | Grave | Minus | Equal |
  LeftBracket | RightBracket | Backslash | Semicolon | Apostrophe | Comma |
  Period | Slash.
End Key.
Abbreviation Key := Key.t.

#[global] Instance Key_eq_dec : EqDecision Key.
Proof. solve_decision. Defined.

Definition all_keys : list Key :=
  [
   Key.Unknown; Key.A; Key.B; Key.C; Key.D; Key.E; Key.F; Key.G; Key.H;
   Key.I; Key.J; Key.K; Key.L; Key.M; Key.N; Key.O; Key.P; Key.Q; Key.R;
   Key.S; Key.T; Key.U; Key.V; Key.W; Key.X; Key.Y; Key.Z; Key.Num0;
   Key.Num1; Key.Num2; Key.Num3; Key.Num4; Key.Num5; Key.Num6; Key.Num7;
   Key.Num8; Key.Num9; Key.F1; Key.F2; Key.F3; Key.F4; Key.F5; Key.F6;
   Key.F7; Key.F8; Key.F9; Key.F10; Key.F11; Key.F12; Key.F13; Key.F14;
   Key.F15; Key.F16; Key.F17; Key.F18; Key.F19; Key.F20; Key.Enter;
   Key.Escape; Key.Backspace; Key.Tab; Key.Space; Key.Left; Key.Right;
   Key.Up; Key.Down; Key.Home; Key.End; Key.PageUp; Key.PageDown; Key.Delete;
   Key.Insert; Key.Numpad0; Key.Numpad1; Key.Numpad2; Key.Numpad3;
   Key.Numpad4; Key.Numpad5; Key.Numpad6; Key.Numpad7; Key.Numpad8;
   Key.Numpad9; Key.NumpadDivide; Key.NumpadMultiply; Key.NumpadMinus;
   Key.NumpadPlus; Key.NumpadEnter; Key.NumpadDecimal; Key.ShiftLeft;
   Key.ShiftRight; Key.CtrlLeft; Key.CtrlRight; Key.AltLeft; Key.AltRight;
   Key.SuperLeft; Key.SuperRight; Key.CapsLock; Key.NumLock; Key.Menu;
   Key.Mute; Key.VolumeDown; Key.VolumeUp; Key.MediaPlayPause; Key.MediaStop;
   Key.MediaNext; Key.MediaPrevious; Key.Grave; Key.Minus; Key.Equal;
   Key.LeftBracket; Key.RightBracket; Key.Backslash; Key.Semicolon;
   Key.Apostrophe; Key.Comma; Key.Period; Key.Slash
  ].

#[global, refine] Instance Key_finite : Finite Key := {| enum := all_keys |}.
Proof.
  - apply (bool_decide_unpack _). vm_compute. exact I.
  - intros []; apply (bool_decide_unpack _); vm_compute; exact I.
Defined.

(** [uint8_t], [uint16_t] and [uint32_t] values are integers with their
    wrap-around written out. *)
Definition to_uint8 (z : Z) : Z := z mod 2 ^ 8.
Definition to_uint16 (z : Z) : Z := z mod 2 ^ 16.
Definition to_uint32 (z : Z) : Z := z mod 2 ^ 32.

(** Modelled from the spec: [enum class Modifier : uint8_t] with its
    [operator|] and [hasModifier] is declared in [typr-io/core.hpp], which
    is not available.  The bit values are those of the [TYPR_IO_MOD_*]
    masks of [c_api.h], which match the C++ layout. *)
Module Modifier.
Definition t : Set := Z.
Definition None : t := 0.
Definition Shift : t := 0x01.
Definition Ctrl : t := 0x02.
Definition Alt : t := 0x04.
Definition Super : t := 0x08.
Definition CapsLock : t := 0x10.
Definition NumLock : t := 0x20.
End Modifier.
Abbreviation Modifier := Modifier.t.

(** Modelled from the spec: [operator|] of core.hpp on modifiers, the
    bitwise union of the two masks. *)
Definition Modifier_or (a b : Modifier) : Modifier :=
  to_uint8 (Z.lor (to_uint8 a) (to_uint8 b)).

(** Modelled from the spec: [hasModifier(state, flag)] of core.hpp, a pure
    bit test: some bit of [flag] is set in [state]. *)
Definition hasModifier (state flag : Modifier) : bool :=
  negb (Z.land (to_uint8 state) (to_uint8 flag) =? 0).

(** The expression
    [static_cast<Modifier>(static_cast<uint8_t>(m) & ~static_cast<uint8_t>(flag))]
    of [Sender::keyUp]: both operands are promoted to [int] before the
    complement, and the result is narrowed back to eight bits. *)
Definition Modifier_clear (m flag : Modifier) : Modifier :=
  to_uint8 (Z.land (to_uint8 m) (Z.lnot (to_uint8 flag))).

(** Modelled from the spec: [struct Capabilities] of core.hpp, with the
    seven fields that [Sender::capabilities] initialises and that
    [typr_io_capabilities_t] mirrors one for one. *)
Record Capabilities : Set := {
  canInjectKeys : bool;
  canInjectText : bool;
  canSimulateHID : bool;
  supportsKeyRepeat : bool;
  needsAccessibilityPerm : bool;
  needsInputMonitoringPerm : bool;
  needsUinputAccess : bool
}.

(** Modelled from the spec: [BackendType] of core.hpp, cut down to the one
    enumerator this backend reports. *)
Inductive BackendType : Set := LinuxUInput.

(** ** Linux input constants

    Values of [<linux/input-event-codes.h>] and [<linux/input.h>]. *)
Definition EV_SYN : Z := 0x00.
Definition EV_KEY : Z := 0x01.
Definition SYN_REPORT : Z := 0.
Definition BUS_USB : Z := 0x03.
Definition KEY_MAX : Z := 0x2ff.
Definition KEY_A : Z := 30.
Definition KEY_B : Z := 48.
Definition KEY_C : Z := 46.
Definition KEY_D : Z := 32.
Definition KEY_E : Z := 18.
Definition KEY_F : Z := 33.
Definition KEY_G : Z := 34.
Definition KEY_H : Z := 35.
Definition KEY_I : Z := 23.
Definition KEY_J : Z := 36.
Definition KEY_K : Z := 37.
Definition KEY_L : Z := 38.
Definition KEY_M : Z := 50.
Definition KEY_N : Z := 49.
Definition KEY_O : Z := 24.
Definition KEY_P : Z := 25.
Definition KEY_Q : Z := 16.
Definition KEY_R : Z := 19.
Definition KEY_S : Z := 31.
Definition KEY_T : Z := 20.
Definition KEY_U : Z := 22.
Definition KEY_V : Z := 47.
Definition KEY_W : Z := 17.
Definition KEY_X : Z := 45.
Definition KEY_Y : Z := 21.
Definition KEY_Z : Z := 44.
Definition KEY_0 : Z := 11.
Definition KEY_1 : Z := 2.
Definition KEY_2 : Z := 3.
Definition KEY_3 : Z := 4.
Definition KEY_4 : Z := 5.
Definition KEY_5 : Z := 6.
Definition KEY_6 : Z := 7.
Definition KEY_7 : Z := 8.
Definition KEY_8 : Z := 9.
Definition KEY_9 : Z := 10.
Definition KEY_F1 : Z := 59.
Definition KEY_F2 : Z := 60.
Definition KEY_F3 : Z := 61.
Definition KEY_F4 : Z := 62.
Definition KEY_F5 : Z := 63.
Definition KEY_F6 : Z := 64.
Definition KEY_F7 : Z := 65.
Definition KEY_F8 : Z := 66.
Definition KEY_F9 : Z := 67.
Definition KEY_F10 : Z := 68.
Definition KEY_F11 : Z := 87.
Definition KEY_F12 : Z := 88.
Definition KEY_F13 : Z := 183.
Definition KEY_F14 : Z := 184.
Definition KEY_F15 : Z := 185.
Definition KEY_F16 : Z := 186.
Definition KEY_F17 : Z := 187.
Definition KEY_F18 : Z := 188.
Definition KEY_F19 : Z := 189.
Definition KEY_F20 : Z := 190.
Definition KEY_ENTER : Z := 28.
Definition KEY_ESC : Z := 1.
Definition KEY_BACKSPACE : Z := 14.
Definition KEY_TAB : Z := 15.
Definition KEY_SPACE : Z := 57.
Definition KEY_LEFT : Z := 105.
Definition KEY_RIGHT : Z := 106.
Definition KEY_UP : Z := 103.
Definition KEY_DOWN : Z := 108.
Definition KEY_HOME : Z := 102.
Definition KEY_END : Z := 107.
Definition KEY_PAGEUP : Z := 104.
Definition KEY_PAGEDOWN : Z := 109.
Definition KEY_DELETE : Z := 111.
Definition KEY_INSERT : Z := 110.
Definition KEY_KP0 : Z := 82.
Definition KEY_KP1 : Z := 79.
Definition KEY_KP2 : Z := 80.
Definition KEY_KP3 : Z := 81.
Definition KEY_KP4 : Z := 75.
Definition KEY_KP5 : Z := 76.
Definition KEY_KP6 : Z := 77.
Definition KEY_KP7 : Z := 71.
Definition KEY_KP8 : Z := 72.
Definition KEY_KP9 : Z := 73.
Definition KEY_KPSLASH : Z := 98.
Definition KEY_KPASTERISK : Z := 55.
Definition KEY_KPMINUS : Z := 74.
Definition KEY_KPPLUS : Z := 78.
Definition KEY_KPENTER : Z := 96.
Definition KEY_KPDOT : Z := 83.
Definition KEY_LEFTSHIFT : Z := 42.
Definition KEY_RIGHTSHIFT : Z := 54.
Definition KEY_LEFTCTRL : Z := 29.
Definition KEY_RIGHTCTRL : Z := 97.
Definition KEY_LEFTALT : Z := 56.
Definition KEY_RIGHTALT : Z := 100.
Definition KEY_LEFTMETA : Z := 125.
Definition KEY_RIGHTMETA : Z := 126.
Definition KEY_CAPSLOCK : Z := 58.
Definition KEY_NUMLOCK : Z := 69.
Definition KEY_MENU : Z := 139.
Definition KEY_MUTE : Z := 113.
Definition KEY_VOLUMEDOWN : Z := 114.
Definition KEY_VOLUMEUP : Z := 115.
Definition KEY_PLAYPAUSE : Z := 164.
Definition KEY_STOPCD : Z := 166.
Definition KEY_NEXTSONG : Z := 163.
Definition KEY_PREVIOUSSONG : Z := 165.
Definition KEY_GRAVE : Z := 41.
Definition KEY_MINUS : Z := 12.
Definition KEY_EQUAL : Z := 13.
Definition KEY_LEFTBRACE : Z := 26.
Definition KEY_RIGHTBRACE : Z := 27.
Definition KEY_BACKSLASH : Z := 43.
Definition KEY_SEMICOLON : Z := 39.
Definition KEY_APOSTROPHE : Z := 40.
Definition KEY_COMMA : Z := 51.
Definition KEY_DOT : Z := 52.
Definition KEY_SLASH : Z := 53.

(** ** The operating system as seen by the backend *)

(** [struct input_event] without its time stamp, which the backend leaves
    zeroed. *)
Record input_event : Set := {
  ev_type : Z;   (* unsigned short *)
  ev_code : Z;   (* unsigned short *)
  ev_value : Z   (* int *)
}.

(** The [ioctl] requests of the uinput device, each with its argument. *)
Inductive ioctl_req : Set :=
| UI_SET_EVBIT (ev : Z)
| UI_SET_KEYBIT (code : Z)
| UI_DEV_SETUP (bustype vendor product : Z) (name : string)
| UI_DEV_CREATE
| UI_DEV_DESTROY.

(** What a run leaves behind.  [Sys_*] are the system calls, in order, with
    the value each returned where the backend reads it.  [Enter_keyDown] and
    [Enter_keyUp] mark the entry into [Sender::keyDown] and [Sender::keyUp]:
    they are how an attempted press or release stays visible when nothing
    reaches the device. *)
Inductive event : Set :=
| Sys_open (ret : Z)
| Sys_ioctl (fd : Z) (req : ioctl_req)
| Sys_write (fd : Z) (ev : input_event) (ret : Z)
| Sys_sleep_us (us : Z)
| Sys_close (fd : Z)
| Enter_keyDown (key : Key)
| Enter_keyUp (key : Key).

(** [write_results] lists what the coming calls of [write(2)] return (a
    negative value is a failed write); once it is used up every write
    succeeds and returns [sizeof(struct input_event)]. *)
Record World : Set := {
  write_results : list Z;
  trace : list event
}.

Definition sizeof_input_event : Z := 24.

Definition record (e : event) (w : World) : World :=
  {| write_results := write_results w; trace := trace w ++ [e] |}.

Definition sys_write (fd : Z) (ev : input_event) (w : World) : Z * World :=
  match write_results w with
  | r :: rest =>
      (r, {| write_results := rest; trace := trace w ++ [Sys_write fd ev r] |})
  | [] =>
      (sizeof_input_event, record (Sys_write fd ev sizeof_input_event) w)
  end.

Definition is_syscall (e : event) : bool :=
  match e with
  | Enter_keyDown _ | Enter_keyUp _ => false
  | _ => true
  end.

(** The system calls of a trace, and the attempted presses and releases. *)
Definition syscalls (t : list event) : list event := filter is_syscall t.
Definition attempts (t : list event) : list event :=
  filter (λ e, negb (is_syscall e)) t.

(** ** [Sender::Impl] *)

Record Impl : Type := {
  fd : Z;                    (* int fd{-1} *)
  currentMods : Modifier;    (* Modifier currentMods{Modifier::None} *)
  keyDelayUs : Z;            (* uint32_t keyDelayUs{1000} *)
  keyMap : gmap Key Z        (* std::unordered_map<Key, int> keyMap *)
}.

Definition Impl_default : Impl :=
  {| fd := -1; currentMods := Modifier.None; keyDelayUs := 1000; keyMap := ∅ |}.

Definition set_fd (v : Z) (i : Impl) : Impl :=
  {| fd := v; currentMods := currentMods i; keyDelayUs := keyDelayUs i;
     keyMap := keyMap i |}.
Definition set_currentMods (v : Modifier) (i : Impl) : Impl :=
  {| fd := fd i; currentMods := v; keyDelayUs := keyDelayUs i;
     keyMap := keyMap i |}.
Definition set_keyDelayUs (v : Z) (i : Impl) : Impl :=
  {| fd := fd i; currentMods := currentMods i; keyDelayUs := v;
     keyMap := keyMap i |}.
Definition set_keyMap (v : gmap Key Z) (i : Impl) : Impl :=
  {| fd := fd i; currentMods := currentMods i; keyDelayUs := keyDelayUs i;
     keyMap := v |}.

(** [Impl::initKeyMap]: the table from logical keys to Linux key codes. *)
Definition initKeyMap_table : list (Key * Z) :=
  [
    (Key.A, KEY_A); (Key.B, KEY_B); (Key.C, KEY_C); (Key.D, KEY_D);
    (Key.E, KEY_E); (Key.F, KEY_F); (Key.G, KEY_G); (Key.H, KEY_H);
    (Key.I, KEY_I); (Key.J, KEY_J); (Key.K, KEY_K); (Key.L, KEY_L);
    (Key.M, KEY_M); (Key.N, KEY_N); (Key.O, KEY_O); (Key.P, KEY_P);
    (Key.Q, KEY_Q); (Key.R, KEY_R); (Key.S, KEY_S); (Key.T, KEY_T);
    (Key.U, KEY_U); (Key.V, KEY_V); (Key.W, KEY_W); (Key.X, KEY_X);
    (Key.Y, KEY_Y); (Key.Z, KEY_Z); (Key.Num0, KEY_0); (Key.Num1, KEY_1);
    (Key.Num2, KEY_2); (Key.Num3, KEY_3); (Key.Num4, KEY_4);
    (Key.Num5, KEY_5); (Key.Num6, KEY_6); (Key.Num7, KEY_7);
    (Key.Num8, KEY_8); (Key.Num9, KEY_9); (Key.F1, KEY_F1); (Key.F2, KEY_F2);
    (Key.F3, KEY_F3); (Key.F4, KEY_F4); (Key.F5, KEY_F5); (Key.F6, KEY_F6);
    (Key.F7, KEY_F7); (Key.F8, KEY_F8); (Key.F9, KEY_F9); (Key.F10, KEY_F10);
    (Key.F11, KEY_F11); (Key.F12, KEY_F12); (Key.F13, KEY_F13);
    (Key.F14, KEY_F14); (Key.F15, KEY_F15); (Key.F16, KEY_F16);
    (Key.F17, KEY_F17); (Key.F18, KEY_F18); (Key.F19, KEY_F19);
    (Key.F20, KEY_F20); (Key.Enter, KEY_ENTER); (Key.Escape, KEY_ESC);
    (Key.Backspace, KEY_BACKSPACE); (Key.Tab, KEY_TAB);
    (Key.Space, KEY_SPACE); (Key.Left, KEY_LEFT); (Key.Right, KEY_RIGHT);
    (Key.Up, KEY_UP); (Key.Down, KEY_DOWN); (Key.Home, KEY_HOME);
    (Key.End, KEY_END); (Key.PageUp, KEY_PAGEUP);
    (Key.PageDown, KEY_PAGEDOWN); (Key.Delete, KEY_DELETE);
    (Key.Insert, KEY_INSERT); (Key.Numpad0, KEY_KP0); (Key.Numpad1, KEY_KP1);
    (Key.Numpad2, KEY_KP2); (Key.Numpad3, KEY_KP3); (Key.Numpad4, KEY_KP4);
    (Key.Numpad5, KEY_KP5); (Key.Numpad6, KEY_KP6); (Key.Numpad7, KEY_KP7);
    (Key.Numpad8, KEY_KP8); (Key.Numpad9, KEY_KP9);
    (Key.NumpadDivide, KEY_KPSLASH); (Key.NumpadMultiply, KEY_KPASTERISK);
    (Key.NumpadMinus, KEY_KPMINUS); (Key.NumpadPlus, KEY_KPPLUS);
    (Key.NumpadEnter, KEY_KPENTER); (Key.NumpadDecimal, KEY_KPDOT);
    (Key.ShiftLeft, KEY_LEFTSHIFT); (Key.ShiftRight, KEY_RIGHTSHIFT);
    (Key.CtrlLeft, KEY_LEFTCTRL); (Key.CtrlRight, KEY_RIGHTCTRL);
    (Key.AltLeft, KEY_LEFTALT); (Key.AltRight, KEY_RIGHTALT);
    (Key.SuperLeft, KEY_LEFTMETA); (Key.SuperRight, KEY_RIGHTMETA);
    (Key.CapsLock, KEY_CAPSLOCK); (Key.NumLock, KEY_NUMLOCK);
    (Key.Menu, KEY_MENU); (Key.Mute, KEY_MUTE);
    (Key.VolumeDown, KEY_VOLUMEDOWN); (Key.VolumeUp, KEY_VOLUMEUP);
    (Key.MediaPlayPause, KEY_PLAYPAUSE); (Key.MediaStop, KEY_STOPCD);
    (Key.MediaNext, KEY_NEXTSONG); (Key.MediaPrevious, KEY_PREVIOUSSONG);
    (Key.Grave, KEY_GRAVE); (Key.Minus, KEY_MINUS); (Key.Equal, KEY_EQUAL);
    (Key.LeftBracket, KEY_LEFTBRACE); (Key.RightBracket, KEY_RIGHTBRACE);
    (Key.Backslash, KEY_BACKSLASH); (Key.Semicolon, KEY_SEMICOLON);
    (Key.Apostrophe, KEY_APOSTROPHE); (Key.Comma, KEY_COMMA);
    (Key.Period, KEY_DOT); (Key.Slash, KEY_SLASH)
  ].

Definition initKeyMap (i : Impl) : Impl :=
  set_keyMap (list_to_map initKeyMap_table) i.

(** [Impl::linuxKeyCodeFor]: [-1] when the key has no entry. *)
Definition linuxKeyCodeFor (i : Impl) (key : Key) : Z :=
  match keyMap i !! key with
  | None => -1
  | Some code => code
  end.

(** [Impl::emit]: one [write] on the descriptor; its result is logged and
    nothing else. *)
Definition emit (i : Impl) (type code val : Z) (w : World) : World :=
  let ev := {| ev_type := to_uint16 type; ev_code := to_uint16 code;
               ev_value := val |} in
  let '(wrote, w') := sys_write (fd i) ev w in
  w'.

(** [Impl::sync] *)
Definition sync (i : Impl) (w : World) : World :=
  emit i EV_SYN SYN_REPORT 0 w.

(** [Impl::sendKey] *)
Definition sendKey (i : Impl) (key : Key) (down : bool) (w : World)
  : bool * World :=
  if fd i <? 0 then (false, w)
  else
    let code := linuxKeyCodeFor i key in
    if code <? 0 then (false, w)
    else
      let w := emit i EV_KEY code (if down then 1 else 0) w in
      let w := sync i w in
      (true, w).

(** [Impl::delay] *)
Definition delay (i : Impl) (w : World) : World :=
  if 0 <? keyDelayUs i then record (Sys_sleep_us (keyDelayUs i)) w else w.

(** The [ioctl(fd, UI_SET_KEYBIT, i)] loop over [0 <= i < KEY_MAX]. *)
Definition set_keybits (fd : Z) (w : World) : World :=
  foldl (λ w code, record (Sys_ioctl fd (UI_SET_KEYBIT (Z.of_nat code))) w)
        w (seq 0 (Z.to_nat KEY_MAX)).

(** [Impl::Impl()]: [open_ret] is what [open("/dev/uinput", ...)] returns. *)
Definition Impl_new (open_ret : Z) (w : World) : Impl * World :=
  let i := set_fd open_ret Impl_default in
  let w := record (Sys_open open_ret) w in
  if fd i <? 0 then (i, w)
  else
    let w := record (Sys_ioctl (fd i) (UI_SET_EVBIT EV_KEY)) w in
    let w := set_keybits (fd i) w in
    let w := record (Sys_ioctl (fd i)
                       (UI_DEV_SETUP BUS_USB 0x1234 0x5678 "Virtual Keyboard")) w in
    let w := record (Sys_ioctl (fd i) UI_DEV_CREATE) w in
    let w := record (Sys_sleep_us 100000) w in
    (initKeyMap i, w).

(** [Impl::~Impl()] *)
Definition Impl_delete (i : Impl) (w : World) : World :=
  if 0 <=? fd i then
    record (Sys_close (fd i)) (record (Sys_ioctl (fd i) UI_DEV_DESTROY) w)
  else w.

(** ** [Sender] *)

(** [m_impl] is the [std::unique_ptr<Impl>]; it is empty in a sender that
    has been moved from. *)
Record Sender : Type := { m_impl : option Impl }.

(** [Sender::Sender()] *)
Definition Sender_new (open_ret : Z) (w : World) : Sender * World :=
  let '(i, w) := Impl_new open_ret w in
  ({| m_impl := Some i |}, w).

(** [Sender::Sender(Sender &&)]: the new sender and what is left behind. *)
Definition Sender_move (other : Sender) : Sender * Sender :=
  ({| m_impl := m_impl other |}, {| m_impl := None |}).

(** [Sender::type] *)
Definition type (s : Sender) : BackendType := LinuxUInput.

(** [m_impl && m_impl->fd >= 0] *)
Definition has_valid_fd (s : Sender) : bool :=
  match m_impl s with
  | None => false
  | Some i => 0 <=? fd i
  end.

(** [Sender::capabilities] *)
Definition capabilities (s : Sender) : Capabilities :=
  {| canInjectKeys := has_valid_fd s;
     canInjectText := false;
     canSimulateHID := true;
     supportsKeyRepeat := true;
     needsAccessibilityPerm := false;
     needsInputMonitoringPerm := false;
     needsUinputAccess := true |}.

(** [Sender::isReady] *)
Definition isReady (s : Sender) : bool :=
  let ready := has_valid_fd s in
  ready.

(** [Sender::requestPermissions] *)
Definition requestPermissions (s : Sender) : bool := isReady s.

(** [Sender::activeModifiers] *)
Definition activeModifiers (s : Sender) : Modifier :=
  match m_impl s with
  | Some i => currentMods i
  | None => Modifier.None
  end.

(** *** The methods that act

    A method runs on a [Machine], the sender together with the world, and
    either returns a value and the next machine or is undefined ([None]):
    the one undefined step is [m_impl->] through an empty pointer. *)
Record Machine : Type := { sender : Sender; os : World }.

Definition M (A : Type) : Type := Machine → option (A * Machine).

#[global] Instance M_ret : MRet M := λ A a m, Some (a, m).
#[global] Instance M_bind : MBind M := λ A B f c m,
  match c m with
  | Some (a, m') => f a m'
  | None => None
  end.

(** [!m_impl] is false *)
Definition has_impl : M bool := λ m,
  Some (match m_impl (sender m) with Some _ => true | None => false end, m).

(** [*m_impl] *)
Definition deref : M Impl := λ m,
  match m_impl (sender m) with
  | Some i => Some (i, m)
  | None => None
  end.

(** [m_impl->currentMods = v] *)
Definition assign_currentMods (v : Modifier) : M unit := λ m,
  match m_impl (sender m) with
  | Some i =>
      Some (tt, {| sender := {| m_impl := Some (set_currentMods v i) |};
                   os := os m |})
  | None => None
  end.

(** [m_impl->keyDelayUs = v] *)
Definition assign_keyDelayUs (v : Z) : M unit := λ m,
  match m_impl (sender m) with
  | Some i =>
      Some (tt, {| sender := {| m_impl := Some (set_keyDelayUs v i) |};
                   os := os m |})
  | None => None
  end.

(** [m_impl->f(...)] for a method [f] of [Impl] that acts on the world. *)
Definition call {A : Type} (f : Impl → World → A * World) : M A := λ m,
  match m_impl (sender m) with
  | Some i => let '(a, w) := f i (os m) in Some (a, {| sender := sender m; os := w |})
  | None => None
  end.

Definition call_ (f : Impl → World → World) : M unit :=
  call (λ i w, (tt, f i w)).

Definition enter (e : event) : M unit := λ m,
  Some (tt, {| sender := sender m; os := record e (os m) |}).

(** [Sender::keyDown] *)
Definition keyDown (key : Key) : M bool :=
  enter (Enter_keyDown key);;
  b ← has_impl;
  if negb b then mret false
  else
    i ← deref;
    match key with
    | Key.ShiftLeft | Key.ShiftRight =>
        assign_currentMods (Modifier_or (currentMods i) Modifier.Shift)
    | Key.CtrlLeft | Key.CtrlRight =>
        assign_currentMods (Modifier_or (currentMods i) Modifier.Ctrl)
    | Key.AltLeft | Key.AltRight =>
        assign_currentMods (Modifier_or (currentMods i) Modifier.Alt)
    | Key.SuperLeft | Key.SuperRight =>
        assign_currentMods (Modifier_or (currentMods i) Modifier.Super)
    | _ => mret tt
    end;;
    ok ← call (λ i, sendKey i key true);
    mret ok.

(** [Sender::keyUp] *)
Definition keyUp (key : Key) : M bool :=
  enter (Enter_keyUp key);;
  b ← has_impl;
  if negb b then mret false
  else
    result ← call (λ i, sendKey i key false);
    i ← deref;
    match key with
    | Key.ShiftLeft | Key.ShiftRight =>
        assign_currentMods (Modifier_clear (currentMods i) Modifier.Shift)
    | Key.CtrlLeft | Key.CtrlRight =>
        assign_currentMods (Modifier_clear (currentMods i) Modifier.Ctrl)
    | Key.AltLeft | Key.AltRight =>
        assign_currentMods (Modifier_clear (currentMods i) Modifier.Alt)
    | Key.SuperLeft | Key.SuperRight =>
        assign_currentMods (Modifier_clear (currentMods i) Modifier.Super)
    | _ => mret tt
    end;;
    mret result.

(** [Sender::tap] *)
Definition tap (key : Key) : M bool :=
  down ← keyDown key;
  if negb down then mret false
  else
    call_ delay;;
    ok ← keyUp key;
    mret ok.

(** [if (hasModifier(mod, flag)) ok &= op(key);] *)
Definition and_if (mod' flag : Modifier) (op : M bool) (ok : bool) : M bool :=
  if hasModifier mod' flag then r ← op; mret (ok && r) else mret ok.

(** [Sender::holdModifier] *)
Definition holdModifier (mod' : Modifier) : M bool :=
  ok ← mret true;
  ok ← and_if mod' Modifier.Shift (keyDown Key.ShiftLeft) ok;
  ok ← and_if mod' Modifier.Ctrl (keyDown Key.CtrlLeft) ok;
  ok ← and_if mod' Modifier.Alt (keyDown Key.AltLeft) ok;
  ok ← and_if mod' Modifier.Super (keyDown Key.SuperLeft) ok;
  mret ok.

(** [Sender::releaseModifier] *)
Definition releaseModifier (mod' : Modifier) : M bool :=
  ok ← mret true;
  ok ← and_if mod' Modifier.Shift (keyUp Key.ShiftLeft) ok;
  ok ← and_if mod' Modifier.Ctrl (keyUp Key.CtrlLeft) ok;
  ok ← and_if mod' Modifier.Alt (keyUp Key.AltLeft) ok;
  ok ← and_if mod' Modifier.Super (keyUp Key.SuperLeft) ok;
  mret ok.

(** [Sender::releaseAllModifiers] *)
Definition releaseAllModifiers : M bool :=
  ok ← releaseModifier
         (Modifier_or (Modifier_or (Modifier_or Modifier.Shift Modifier.Ctrl)
                                   Modifier.Alt) Modifier.Super);
  mret ok.

(** [Sender::combo] *)
Definition combo (mods : Modifier) (key : Key) : M bool :=
  held ← holdModifier mods;
  if negb held then mret false
  else
    call_ delay;;
    ok ← tap key;
    call_ delay;;
    releaseModifier mods;;
    mret ok.

(** [Sender::typeText(const std::u32string &)] *)
Definition typeText_u32 (text : list Z) : M bool := mret false.

(** [Sender::typeText(const std::string &)] *)
Definition typeText (utf8Text : string) : M bool := mret false.

(** [Sender::typeCharacter] *)
Definition typeCharacter (codepoint : Z) : M bool := mret false.

(** [Sender::flush] *)
Definition flush : M unit :=
  b ← has_impl;
  if (b : bool) then call_ sync else mret tt.

(** [Sender::setKeyDelay] *)
Definition setKeyDelay (delayUs : Z) : M unit :=
  b ← has_impl;
  if (b : bool) then assign_keyDelayUs (to_uint32 delayUs) else mret tt.

(** A machine just after construction, and two concrete worlds. *)
Definition boot (open_ret : Z) (w : World) : Machine :=
  let '(s, w) := Sender_new open_ret w in {| sender := s; os := w |}.

Definition quiet_world : World := {| write_results := []; trace := [] |}.
Definition failing_world : World :=
  {| write_results := [-1; -1; -1; -1]; trace := [] |}.

Definition result {A : Type} (r : option (A * Machine)) : option A :=
  fst <$> r.

(** *** Sequences of calls on one sender *)

Inductive SenderOp : Set :=
| Op_type
| Op_capabilities
| Op_isReady
| Op_requestPermissions
| Op_keyDown (key : Key)
| Op_keyUp (key : Key)
| Op_tap (key : Key)
| Op_activeModifiers
| Op_holdModifier (mods : Modifier)
| Op_releaseModifier (mods : Modifier)
| Op_releaseAllModifiers
| Op_combo (mods : Modifier) (key : Key)
| Op_typeText_u32 (text : list Z)
| Op_typeText (utf8Text : string)
| Op_typeCharacter (codepoint : Z)
| Op_flush
| Op_setKeyDelay (delayUs : Z).

(** A [const] method reads the sender and changes nothing. *)
Definition const_method {A : Type} (f : Sender → A) : M A := λ m,
  Some (f (sender m), m).

Definition discard {A : Type} (c : M A) : M unit := c;; mret tt.

Definition run_op (o : SenderOp) : M unit :=
  match o with
  | Op_type => discard (const_method type)
  | Op_capabilities => discard (const_method capabilities)
  | Op_isReady => discard (const_method isReady)
  | Op_requestPermissions => discard (const_method requestPermissions)
  | Op_keyDown key => discard (keyDown key)
  | Op_keyUp key => discard (keyUp key)
  | Op_tap key => discard (tap key)
  | Op_activeModifiers => discard (const_method activeModifiers)
  | Op_holdModifier mods => discard (holdModifier mods)
  | Op_releaseModifier mods => discard (releaseModifier mods)
  | Op_releaseAllModifiers => discard releaseAllModifiers
  | Op_combo mods key => discard (combo mods key)
  | Op_typeText_u32 text => discard (typeText_u32 text)
  | Op_typeText utf8Text => discard (typeText utf8Text)
  | Op_typeCharacter codepoint => discard (typeCharacter codepoint)
  | Op_flush => flush
  | Op_setKeyDelay delayUs => setKeyDelay delayUs
  end.

Fixpoint run_ops (ops : list SenderOp) : M unit :=
  match ops with
  | [] => mret tt
  | o :: rest => run_op o;; run_ops rest
  end.

(** *** Vocabulary of the statements *)

(** The modifier bit a key stands for: the eight keys that the [switch] of
    [keyDown] and [keyUp] singles out. *)
Definition modifier_of_key (key : Key) : option Modifier :=
  match key with
  | Key.ShiftLeft | Key.ShiftRight => Some Modifier.Shift
  | Key.CtrlLeft | Key.CtrlRight => Some Modifier.Ctrl
  | Key.AltLeft | Key.AltRight => Some Modifier.Alt
  | Key.SuperLeft | Key.SuperRight => Some Modifier.Super
  | _ => None
  end.

(** The tracked mask once [keyDown key], respectively [keyUp key], has run
    on a sender that owns an [Impl]. *)
Definition mods_after_down (key : Key) (cur : Modifier) : Modifier :=
  match modifier_of_key key with
  | Some bit => Modifier_or cur bit
  | None => cur
  end.

(** Likewise for [keyUp key]. *)
Definition mods_after_up (key : Key) (cur : Modifier) : Modifier :=
  match modifier_of_key key with
  | Some bit => Modifier_clear cur bit
  | None => cur
  end.

(** What [activeModifiers()] returns once the mask has gone through [f]. *)
Definition tracked_after (f : Modifier → Modifier) (s : Sender) : Modifier :=
  match m_impl s with
  | Some i => f (currentMods i)
  | None => Modifier.None
  end.

(** The four modifiers that [holdModifier] and [releaseModifier] look at,
    and all six of the bit mask. *)
Definition four_modifiers : Modifier := 0x0f.
Definition all_modifiers : Modifier := 0x3f.

(** The machine once [m_impl->delay()] has run. *)
Definition after_delay (m : Machine) : Machine :=
  match m_impl (sender m) with
  | Some i => {| sender := sender m; os := delay i (os m) |}
  | None => m
  end.

(** A call that fails without reaching the operating system and leaves the
    tracked mask at [mods]. *)
Definition fails_silently (r : option (bool * Machine)) (m : Machine)
    (mods : Modifier) : Prop :=
  ∃ m', r = Some (false, m') ∧
        syscalls (trace (os m')) = syscalls (trace (os m)) ∧
        write_results (os m') = write_results (os m) ∧
        activeModifiers (sender m') = mods.

(** The mask a run left, and the events it added to the trace of [m]. *)
Definition mask_of {A : Type} (r : option (A * Machine)) : option Modifier :=
  (λ p, activeModifiers (sender p.2)) <$> r.

(** Whether a trace holds an attempted release of [key]. *)
Definition key_up_attempted (key : Key) (t : list event) : bool :=
  existsb (λ e, match e with
                | Enter_keyUp k => bool_decide (k = key)
                | _ => false
                end) t.

Definition new_events {A : Type} (m : Machine) (r : option (A * Machine))
  : option (list event) :=
  (λ p, drop (length (trace (os m))) (trace (os p.2))) <$> r.

(** Whether [sendKey] reports success is decided before anything is
    written. *)
Definition can_send (i : Impl) (key : Key) : bool :=
  (0 <=? fd i) && (0 <=? linuxKeyCodeFor i key).

(** [keyDown] and [keyUp] are one step, up to the mark they leave, the way
    they change the mask and the value they write. *)
Definition press (mark : Key → event) (after : Key → Modifier → Modifier)
    (down : bool) (key : Key) : M bool := λ m,
  let w := record (mark key) (os m) in
  match m_impl (sender m) with
  | None => Some (false, {| sender := sender m; os := w |})
  | Some i =>
      let i' := set_currentMods (after key (currentMods i)) i in
      let '(ok, w') := sendKey i key down w in
      Some (ok, {| sender := {| m_impl := Some i' |}; os := w' |})
  end.

(** Whether a key event of the sender reaches the device: the descriptor is
    valid and the key has a code. *)
Definition sends (s : Sender) (key : Key) : bool :=
  match m_impl s with
  | Some i => can_send i key
  | None => false
  end.

(** The two writes of a key event that [sendKey] lets through, with what
    each [write] returned. *)
Definition key_event (i : Impl) (key : Key) (down : bool) (r1 r2 : Z)
  : list event :=
  [Sys_write (fd i) {| ev_type := to_uint16 EV_KEY;
                       ev_code := to_uint16 (linuxKeyCodeFor i key);
                       ev_value := if down then 1 else 0 |} r1;
   Sys_write (fd i) {| ev_type := to_uint16 EV_SYN;
                       ev_code := to_uint16 SYN_REPORT;
                       ev_value := 0 |} r2].

(** The flags that [holdModifier] and [releaseModifier] test, in the order
    of the source, each with the left-hand key that stands for it. *)
Definition modifier_keys : list (Modifier * Key) :=
  [(Modifier.Shift, Key.ShiftLeft); (Modifier.Ctrl, Key.CtrlLeft);
   (Modifier.Alt, Key.AltLeft); (Modifier.Super, Key.SuperLeft)].

(** The chain of [if (hasModifier(mod, flag)) ok &= op(key);] over a list of
    flags. *)
Fixpoint sweep (op : Key → M bool) (mods : Modifier)
    (l : list (Modifier * Key)) (ok : bool) : M bool :=
  match l with
  | [] => mret ok
  | (flag, key) :: rest =>
      ok' ← and_if mods flag (op key) ok; sweep op mods rest ok'
  end.

(** The keys of [l] that [mods] selects, and the mask once each of them has
    been stepped. *)
Definition selected (mods : Modifier) (l : list (Modifier * Key)) : list Key :=
  snd <$> filter (λ p, hasModifier mods p.1) l.

Definition sweep_mask (after : Key → Modifier → Modifier) (mods : Modifier)
    (l : list (Modifier * Key)) (cur : Modifier) : Modifier :=
  foldl (λ c p, if hasModifier mods p.1 then after p.2 c else c) cur l.

Arguments sweep_mask : simpl never.
Arguments selected : simpl never.

(** The events of [m_impl->delay()]. *)
Definition delay_events (s : Sender) : list event :=
  match m_impl s with
  | Some i => if 0 <? keyDelayUs i then [Sys_sleep_us (keyDelayUs i)] else []
  | None => []
  end.


(** The mask has no bit outside Shift, Ctrl, Alt and Super. *)
Definition only_four (c : Modifier) : Prop :=
  Z.land c (Z.lnot four_modifiers) = 0.

(** The sender owns an [Impl] whose mask is within the four bits. *)
Definition tracked_ok (m : Machine) : Prop :=
  ∃ i, m_impl (sender m) = Some i ∧ only_four (currentMods i).

(** A method that is defined on every machine that is [tracked_ok], and
    leaves it so. *)
Definition preserves {A : Type} (c : M A) : Prop :=
  ∀ m, tracked_ok m → ∃ a m', c m = Some (a, m') ∧ tracked_ok m'.

(** ** Key names *)

(** Modelled from the spec: [keyToString] and [stringToKey] belong to the
    core library, whose source is not available.  [keyToString] is total and
    gives each key its canonical name, the name of its enumerator, and
    ["Unknown"] for the sentinel; [stringToKey] ignores case, accepts the
    aliases the spec mentions and answers [Key::Unknown] when nothing
    matches. *)
Definition key_names : list (Key * string) :=
  [
    (Key.A, "A"); (Key.B, "B"); (Key.C, "C"); (Key.D, "D"); (Key.E, "E");
    (Key.F, "F"); (Key.G, "G"); (Key.H, "H"); (Key.I, "I"); (Key.J, "J");
    (Key.K, "K"); (Key.L, "L"); (Key.M, "M"); (Key.N, "N"); (Key.O, "O");
    (Key.P, "P"); (Key.Q, "Q"); (Key.R, "R"); (Key.S, "S"); (Key.T, "T");
    (Key.U, "U"); (Key.V, "V"); (Key.W, "W"); (Key.X, "X"); (Key.Y, "Y");
    (Key.Z, "Z"); (Key.Num0, "Num0"); (Key.Num1, "Num1"); (Key.Num2, "Num2");
    (Key.Num3, "Num3"); (Key.Num4, "Num4"); (Key.Num5, "Num5");
    (Key.Num6, "Num6"); (Key.Num7, "Num7"); (Key.Num8, "Num8");
    (Key.Num9, "Num9"); (Key.F1, "F1"); (Key.F2, "F2"); (Key.F3, "F3");
    (Key.F4, "F4"); (Key.F5, "F5"); (Key.F6, "F6"); (Key.F7, "F7");
    (Key.F8, "F8"); (Key.F9, "F9"); (Key.F10, "F10"); (Key.F11, "F11");
    (Key.F12, "F12"); (Key.F13, "F13"); (Key.F14, "F14"); (Key.F15, "F15");
    (Key.F16, "F16"); (Key.F17, "F17"); (Key.F18, "F18"); (Key.F19, "F19");
    (Key.F20, "F20"); (Key.Enter, "Enter"); (Key.Escape, "Escape");
    (Key.Backspace, "Backspace"); (Key.Tab, "Tab"); (Key.Space, "Space");
    (Key.Left, "Left"); (Key.Right, "Right"); (Key.Up, "Up");
    (Key.Down, "Down"); (Key.Home, "Home"); (Key.End, "End");
    (Key.PageUp, "PageUp"); (Key.PageDown, "PageDown");
    (Key.Delete, "Delete"); (Key.Insert, "Insert"); (Key.Numpad0, "Numpad0");
    (Key.Numpad1, "Numpad1"); (Key.Numpad2, "Numpad2");
    (Key.Numpad3, "Numpad3"); (Key.Numpad4, "Numpad4");
    (Key.Numpad5, "Numpad5"); (Key.Numpad6, "Numpad6");
    (Key.Numpad7, "Numpad7"); (Key.Numpad8, "Numpad8");
    (Key.Numpad9, "Numpad9"); (Key.NumpadDivide, "NumpadDivide");
    (Key.NumpadMultiply, "NumpadMultiply"); (Key.NumpadMinus, "NumpadMinus");
    (Key.NumpadPlus, "NumpadPlus"); (Key.NumpadEnter, "NumpadEnter");
    (Key.NumpadDecimal, "NumpadDecimal"); (Key.ShiftLeft, "ShiftLeft");
    (Key.ShiftRight, "ShiftRight"); (Key.CtrlLeft, "CtrlLeft");
    (Key.CtrlRight, "CtrlRight"); (Key.AltLeft, "AltLeft");
    (Key.AltRight, "AltRight"); (Key.SuperLeft, "SuperLeft");
    (Key.SuperRight, "SuperRight"); (Key.CapsLock, "CapsLock");
    (Key.NumLock, "NumLock"); (Key.Menu, "Menu"); (Key.Mute, "Mute");
    (Key.VolumeDown, "VolumeDown"); (Key.VolumeUp, "VolumeUp");
    (Key.MediaPlayPause, "MediaPlayPause"); (Key.MediaStop, "MediaStop");
    (Key.MediaNext, "MediaNext"); (Key.MediaPrevious, "MediaPrevious");
    (Key.Grave, "Grave"); (Key.Minus, "Minus"); (Key.Equal, "Equal");
    (Key.LeftBracket, "LeftBracket"); (Key.RightBracket, "RightBracket");
    (Key.Backslash, "Backslash"); (Key.Semicolon, "Semicolon");
    (Key.Apostrophe, "Apostrophe"); (Key.Comma, "Comma");
    (Key.Period, "Period"); (Key.Slash, "Slash")
  ].

(** Modelled from the spec: the aliases the spec gives as examples. *)
Definition key_aliases : list (string * Key) :=
  [("esc", Key.Escape); ("space", Key.Space)].

Definition lower_ascii (c : Ascii.ascii) : Ascii.ascii :=
  let n := Ascii.nat_of_ascii c in
  if (65 <=? n)%nat && (n <=? 90)%nat then Ascii.ascii_of_nat (n + 32) else c.

Fixpoint toLower (s : string) : string :=
  match s with
  | EmptyString => EmptyString
  | String c rest => String (lower_ascii c) (toLower rest)
  end.

(** The first key of [table] whose name is [name] up to case. *)
Fixpoint key_named (table : list (Key * string)) (name : string) : option Key :=
  match table with
  | [] => None
  | (k, n) :: rest =>
      if String.eqb (toLower n) (toLower name) then Some k
      else key_named rest name
  end.

Fixpoint name_of (table : list (Key * string)) (key : Key) : option string :=
  match table with
  | [] => None
  | (k, n) :: rest => if decide (k = key) then Some n else name_of rest key
  end.

Fixpoint alias_named (table : list (string * Key)) (name : string) : option Key :=
  match table with
  | [] => None
  | (n, k) :: rest =>
      if String.eqb n (toLower name) then Some k else alias_named rest name
  end.

(** Modelled from the spec: [keyToString], total, the name Unknown for a key
    without a name. *)
Definition keyToString (key : Key) : string :=
  match name_of key_names key with
  | Some n => n
  | None => "Unknown"
  end.

(** Modelled from the spec: [stringToKey], canonical names first, then the
    aliases, [Key::Unknown] when nothing matches. *)
Definition stringToKey (name : string) : Key :=
  match key_named key_names name with
  | Some k => k
  | None =>
      match alias_named key_aliases name with
      | Some k => k
      | None => Key.Unknown
      end
  end.

(** ** The C boundary *)

(** Modelled from the spec: the functions of [c_api.h] are implemented in a
    source file that is not available.  A handle is [NULL] or owns one live
    object; the last-error slot is process wide; an entry point that is given
    an invalid argument fails at once, before anything else, and describes
    the failure by the name of that argument. *)
Module CApi.

(** Modelled from the spec: the process as the boundary sees it, the
    last-error slot and the world. *)
Record Process : Type := {
  last_error : option string;
  world : World
}.

Definition set_last_error (msg : string) (p : Process) : Process :=
  {| last_error := Some msg; world := world p |}.

(** Modelled from the spec: the description of an invalid argument; the
    spec fixes no wording beyond the name of the argument. *)
Definition invalid_argument (name : string) : string :=
  name +:+ " is NULL".

(** [std::string::find(needle) != npos] *)
Definition mentions (needle text : string) : bool :=
  match String.index 0 needle text with
  | Some _ => true
  | None => false
  end.

(** What an entry point returns, what its handle owns afterwards, and the
    process; [None] when the native call is undefined. *)
Definition outcome (A H : Type) : Type := option (A * option H * Process).

Definition reject {A H : Type} (fail : A) (handle : option H) (arg : string)
    (p : Process) : outcome A H :=
  Some (fail, handle, set_last_error (invalid_argument arg) p).

(** Modelled from the spec: an entry point that forwards to a method of the
    sender behind [handle]; [failure] describes a native call that returned [false]. *)
Definition sender_call (op : M bool) (failure : string)
    (handle : option Sender) (p : Process) : outcome bool Sender :=
  match handle with
  | None => reject false handle "sender" p
  | Some s =>
      match op {| sender := s; os := world p |} with
      | None => None
      | Some (ok, m) =>
          let p' := {| last_error := last_error p; world := os m |} in
          Some (ok, Some (sender m),
                if (ok : bool) then p' else set_last_error failure p')
      end
  end.

(** Modelled from the spec: [typr_io_sender_key_down] of [c_api.h]. *)
Definition typr_io_sender_key_down (handle : option Sender) (key : Key) :=
  sender_call (keyDown key) "typr_io_sender_key_down: keyDown failed" handle.

(** Modelled from the spec: [typr_io_sender_key_up] of [c_api.h]. *)
Definition typr_io_sender_key_up (handle : option Sender) (key : Key) :=
  sender_call (keyUp key) "typr_io_sender_key_up: keyUp failed" handle.

(** Modelled from the spec: [typr_io_sender_tap] of [c_api.h]. *)
Definition typr_io_sender_tap (handle : option Sender) (key : Key) :=
  sender_call (tap key) "typr_io_sender_tap: tap failed" handle.

(** Modelled from the spec: [typr_io_sender_hold_modifier] of [c_api.h]. *)
Definition typr_io_sender_hold_modifier (handle : option Sender)
    (mods : Modifier) :=
  sender_call (holdModifier mods)
    "typr_io_sender_hold_modifier: holdModifier failed" handle.

(** Modelled from the spec: [typr_io_sender_release_modifier] of [c_api.h]. *)
Definition typr_io_sender_release_modifier (handle : option Sender)
    (mods : Modifier) :=
  sender_call (releaseModifier mods)
    "typr_io_sender_release_modifier: releaseModifier failed" handle.

(** Modelled from the spec: [typr_io_sender_release_all_modifiers] of [c_api.h]. *)
Definition typr_io_sender_release_all_modifiers (handle : option Sender) :=
  sender_call releaseAllModifiers
    "typr_io_sender_release_all_modifiers: releaseAllModifiers failed" handle.

(** Modelled from the spec: [typr_io_sender_combo] of [c_api.h]. *)
Definition typr_io_sender_combo (handle : option Sender) (mods : Modifier)
    (key : Key) :=
  sender_call (combo mods key) "typr_io_sender_combo: combo failed" handle.

(** Modelled from the spec: [typr_io_sender_type_text_utf8] of [c_api.h]. *)
Definition typr_io_sender_type_text_utf8 (handle : option Sender)
    (utf8_text : option string) (p : Process) : outcome bool Sender :=
  match handle, utf8_text with
  | None, _ => reject false handle "sender" p
  | Some _, None => reject false handle "utf8_text" p
  | Some _, Some text =>
      sender_call (typeText text)
        "typr_io_sender_type_text_utf8: typeText failed" handle p
  end.

(** Modelled from the spec: [typr_io_sender_type_character] of [c_api.h]. *)
Definition typr_io_sender_type_character (handle : option Sender)
    (codepoint : Z) :=
  sender_call (typeCharacter codepoint)
    "typr_io_sender_type_character: typeCharacter failed" handle.

(** Modelled from the spec: a listener is idle or listening.  Its backend
    is outside these sources:
    [install] stands for the native [start], which tells whether the hook
    went in and what it did to the world. *)
Record Listener : Set := { listening : bool }.

(** Modelled from the spec: the callback of [typr_io_listener_start],
    without its [user_data]. *)
Definition listener_cb : Type := Z → Key → Modifier → bool → unit.

(** Modelled from the spec: [typr_io_listener_start] of [c_api.h]. *)
Definition typr_io_listener_start (install : listener_cb → World → bool * World)
    (handle : option Listener) (cb : option listener_cb) (p : Process)
  : outcome bool Listener :=
  match handle, cb with
  | None, _ => reject false handle "listener" p
  | Some _, None => reject false handle "callback" p
  | Some l, Some f =>
      let '(ok, w) := install f (world p) in
      let p' := {| last_error := last_error p; world := w |} in
      if ok then Some (true, Some {| listening := true |}, p')
      else Some (false, Some l,
                 set_last_error "typr_io_listener_start: start failed" p')
  end.

(** Modelled from the spec: [typr_io_get_last_error] and
    [typr_io_clear_last_error] of [c_api.h]. *)
Definition typr_io_get_last_error (p : Process) : option string :=
  last_error p.

Definition typr_io_clear_last_error (p : Process) : Process :=
  {| last_error := None; world := world p |}.

(** An entry point turned the call down because of argument [arg]: it
    returned [false], left the handle and the world alone, and the slot now
    holds a description that names [arg]. *)
Definition rejected {H : Type} (r : outcome bool H) (handle : option H)
    (p : Process) (arg : string) : Prop :=
  ∃ msg, r = Some (false, handle, {| last_error := Some msg; world := world p |})
         ∧ mentions arg msg = true.
End CApi.

(** ** Tactics *)

Ltac unfold_method :=
  unfold keyDown, keyUp, mbind, M_bind, mret, M_ret, enter, has_impl, deref,
    assign_currentMods, call, mods_after_down, mods_after_up; simpl.



(** * Properties *)

(** ** Arithmetic of the modifier mask *)



Lemma to_uint8_land_ones z : to_uint8 z = Z.land z (Z.ones 8).
Proof. unfold to_uint8. rewrite Z.land_ones by lia. reflexivity. Qed.

Lemma to_uint8_testbit z n :
  0 ≤ n → Z.testbit (to_uint8 z) n = Z.testbit z n && (n <? 8).
Proof.
  intros Hn. rewrite to_uint8_land_ones, Z.land_spec.
  destruct (Z.ltb_spec n 8).
  - rewrite Z.ones_spec_low by lia. reflexivity.
  - rewrite Z.ones_spec_high by lia. reflexivity.
Qed.

Lemma Modifier_clear_testbit cur bit n :
  0 ≤ n →
  Z.testbit (Modifier_clear cur bit) n
  = Z.testbit cur n && negb (Z.testbit bit n) && (n <? 8).
Proof.
  intros Hn. unfold Modifier_clear.
  rewrite to_uint8_testbit, Z.land_spec, Z.lnot_spec by lia.
  rewrite !to_uint8_testbit by lia.
  destruct (Z.testbit cur n), (Z.testbit bit n), (n <? 8); reflexivity.
Qed.

Lemma Modifier_or_testbit a b n :
  0 ≤ n →
  Z.testbit (Modifier_or a b) n
  = (Z.testbit a n || Z.testbit b n) && (n <? 8).
Proof.
  intros Hn. unfold Modifier_or.
  rewrite to_uint8_testbit, Z.lor_spec by lia.
  rewrite !to_uint8_testbit by lia.
  destruct (Z.testbit a n), (Z.testbit b n), (n <? 8); reflexivity.
Qed.

(** Once cleared, a bit is gone from the mask. *)
Lemma Modifier_clear_disjoint cur bit :
  Z.land (Modifier_clear cur bit) bit = 0.
Proof.
  apply Z.bits_inj'. intros n Hn.
  rewrite Z.land_spec, Modifier_clear_testbit, Z.bits_0 by lia.
  destruct (Z.testbit cur n), (Z.testbit bit n), (n <? 8); reflexivity.
Qed.

(** [hasModifier] only reads the low eight bits, one flag at a time. *)
Lemma hasModifier_testbit mods k :
  0 ≤ k < 8 → hasModifier mods (2 ^ k) = Z.testbit mods k.
Proof.
  intros Hk. unfold hasModifier.
  assert (Z.land (to_uint8 mods) (to_uint8 (2 ^ k))
          = if Z.testbit mods k then 2 ^ k else 0) as ->.
  { apply Z.bits_inj'. intros n Hn.
    rewrite Z.land_spec, !to_uint8_testbit by lia.
    rewrite Z.pow2_bits_eqb by lia.
    destruct (Z.eqb_spec k n) as [->|Hne].
    - destruct (Z.ltb_spec n 8); [|lia].
      destruct (Z.testbit mods n); simpl.
      + rewrite Z.pow2_bits_true by lia. reflexivity.
      + rewrite Z.bits_0. reflexivity.
    - rewrite andb_false_l, andb_false_r.
      destruct (Z.testbit mods k).
      + rewrite Z.pow2_bits_false by lia. reflexivity.
      + rewrite Z.bits_0. reflexivity. }
  destruct (Z.testbit mods k).
  - assert (0 < 2 ^ k) by (apply Z.pow_pos_nonneg; lia).
    destruct (Z.eqb_spec (2 ^ k) 0); [lia | reflexivity].
  - reflexivity.
Qed.

(** ** The world only grows *)

Lemma sys_write_trace fd ev w :
  ∃ r, trace (sys_write fd ev w).2 = trace w ++ [Sys_write fd ev r].
Proof. unfold sys_write. destruct (write_results w); simpl; eauto. Qed.

Lemma emit_trace i type code val w :
  ∃ r, trace (emit i type code val w)
       = trace w ++ [Sys_write (fd i) {| ev_type := to_uint16 type;
                                         ev_code := to_uint16 code;
                                         ev_value := val |} r].
Proof.
  unfold emit.
  destruct (sys_write_trace (fd i) {| ev_type := to_uint16 type;
              ev_code := to_uint16 code; ev_value := val |} w) as [r Hr].
  destruct (sys_write _ _ w) as [wrote w']. simpl in Hr. eauto.
Qed.

(** [sendKey] reads no more of the [Impl] than its descriptor and its key
    map. *)
Lemma sendKey_set_currentMods v i key down w :
  sendKey (set_currentMods v i) key down w = sendKey i key down w.
Proof. reflexivity. Qed.

Lemma set_currentMods_same i : set_currentMods (currentMods i) i = i.
Proof. destruct i; reflexivity. Qed.

Lemma sendKey_result i key down w :
  (sendKey i key down w).1 = can_send i key.
Proof.
  unfold sendKey, can_send.
  destruct (Z.ltb_spec (fd i) 0), (Z.leb_spec 0 (fd i)); try lia;
    [reflexivity|].
  destruct (Z.ltb_spec (linuxKeyCodeFor i key) 0),
           (Z.leb_spec 0 (linuxKeyCodeFor i key)); try lia; reflexivity.
Qed.

Lemma sendKey_refused i key down w :
  can_send i key = false → sendKey i key down w = (false, w).
Proof.
  unfold sendKey, can_send. intros H.
  destruct (Z.ltb_spec (fd i) 0); [reflexivity|].
  destruct (Z.ltb_spec (linuxKeyCodeFor i key) 0); [reflexivity|].
  destruct (Z.leb_spec 0 (fd i)), (Z.leb_spec 0 (linuxKeyCodeFor i key));
    simpl in H; (discriminate || lia).
Qed.

Lemma sendKey_trace i key down w :
  can_send i key = true →
  ∃ r1 r2,
    trace (sendKey i key down w).2
    = trace w ++
      [Sys_write (fd i) {| ev_type := to_uint16 EV_KEY;
                           ev_code := to_uint16 (linuxKeyCodeFor i key);
                           ev_value := if down then 1 else 0 |} r1;
       Sys_write (fd i) {| ev_type := to_uint16 EV_SYN;
                           ev_code := to_uint16 SYN_REPORT;
                           ev_value := 0 |} r2].
Proof.
  unfold sendKey, can_send. intros H. apply andb_prop in H as [Hf Hc].
  apply Z.leb_le in Hf, Hc.
  destruct (Z.ltb_spec (fd i) 0); [lia|].
  destruct (Z.ltb_spec (linuxKeyCodeFor i key) 0); [lia|]. simpl.
  unfold sync.
  destruct (emit_trace i EV_KEY (linuxKeyCodeFor i key)
              (if down then 1 else 0) w) as [r1 H1].
  destruct (emit_trace i EV_SYN SYN_REPORT 0
              (emit i EV_KEY (linuxKeyCodeFor i key)
                 (if down then 1 else 0) w)) as [r2 H2].
  exists r1, r2. rewrite H2, H1, <- app_assoc. reflexivity.
Qed.

(** ** [keyDown] and [keyUp] unfolded *)

Lemma keyDown_eq key m :
  keyDown key m =
  let w := record (Enter_keyDown key) (os m) in
  match m_impl (sender m) with
  | None => Some (false, {| sender := sender m; os := w |})
  | Some i =>
      let i' := set_currentMods (mods_after_down key (currentMods i)) i in
      let '(ok, w') := sendKey i key true w in
      Some (ok, {| sender := {| m_impl := Some i' |}; os := w' |})
  end.
Proof.
  destruct m as [[[i|]] w]; [|reflexivity].
  unfold_method.
  destruct key; simpl;
    rewrite ?sendKey_set_currentMods, ?set_currentMods_same;
    destruct (sendKey i _ _ _); reflexivity.
Qed.

Lemma keyUp_eq key m :
  keyUp key m =
  let w := record (Enter_keyUp key) (os m) in
  match m_impl (sender m) with
  | None => Some (false, {| sender := sender m; os := w |})
  | Some i =>
      let i' := set_currentMods (mods_after_up key (currentMods i)) i in
      let '(ok, w') := sendKey i key false w in
      Some (ok, {| sender := {| m_impl := Some i' |}; os := w' |})
  end.
Proof.
  destruct m as [[[i|]] w]; [|reflexivity].
  unfold_method.
  destruct key; simpl;
    rewrite ?sendKey_set_currentMods, ?set_currentMods_same;
    destruct (sendKey i _ _ _); reflexivity.
Qed.

Lemma keyDown_press key m :
  keyDown key m = press Enter_keyDown mods_after_down true key m.
Proof. apply keyDown_eq. Qed.

Lemma keyUp_press key m :
  keyUp key m = press Enter_keyUp mods_after_up false key m.
Proof. apply keyUp_eq. Qed.

Lemma attempts_app t1 t2 : attempts (t1 ++ t2) = attempts t1 ++ attempts t2.
Proof. apply filter_app. Qed.

Lemma syscalls_app t1 t2 : syscalls (t1 ++ t2) = syscalls t1 ++ syscalls t2.
Proof. apply filter_app. Qed.

Lemma press_run mark after down key m :
  ∃ m' t,
    press mark after down key m = Some (sends (sender m) key, m') ∧
    m_impl (sender m')
    = (λ i, set_currentMods (after key (currentMods i)) i) <$> m_impl (sender m) ∧
    trace (os m') = trace (os m) ++ mark key :: t ∧
    attempts t = [] ∧
    (sends (sender m) key = false →
       t = [] ∧ write_results (os m') = write_results (os m)) ∧
    (sends (sender m) key = true →
       ∃ i r1 r2, m_impl (sender m) = Some i ∧ t = key_event i key down r1 r2).
Proof.
  unfold press, sends. destruct (m_impl (sender m)) as [i|] eqn:Hi.
  - destruct (can_send i key) eqn:Hs.
    + destruct (sendKey_trace i key down (record (mark key) (os m)) Hs)
        as (r1 & r2 & Ht).
      pose proof (sendKey_result i key down (record (mark key) (os m))) as Hr.
      destruct (sendKey i key down _) as [ok w']. simpl in *. subst ok.
      rewrite Hs. eexists _, (key_event i key down r1 r2). simpl.
      split_and!; try reflexivity.
      * simpl. rewrite Ht, <- app_assoc. reflexivity.
      * discriminate.
      * intros _. eauto.
    + rewrite (sendKey_refused i key down _ Hs).
      eexists _, []. simpl. split_and!; try reflexivity; try done.
  - eexists _, []. simpl. split_and!; try reflexivity; try done.
Qed.

(** A step changes the tracked mask and nothing else of the sender. *)
Lemma press_active mark after down key m ok m' :
  press mark after down key m = Some (ok, m') →
  activeModifiers (sender m') = tracked_after (after key) (sender m).
Proof.
  destruct (press_run mark after down key m) as (m1 & t & -> & Hi & _).
  intros [= _ <-]. unfold activeModifiers, tracked_after. rewrite Hi.
  destruct (m_impl (sender m)); reflexivity.
Qed.

Lemma press_sends mark after down key m ok m' key' :
  press mark after down key m = Some (ok, m') →
  sends (sender m') key' = sends (sender m) key'.
Proof.
  destruct (press_run mark after down key m) as (m1 & t & -> & Hi & _).
  intros [= _ <-]. unfold sends. rewrite Hi.
  destruct (m_impl (sender m)); reflexivity.
Qed.

(** ** [tap] unfolded *)

Lemma bind_ret_same {A : Type} (c : M A) m : (a ← c; mret a) m = c m.
Proof.
  unfold mbind, M_bind, mret, M_ret. destruct (c m) as [[a m']|]; reflexivity.
Qed.

Lemma call_delay m : is_Some (m_impl (sender m)) →
  call_ delay m = Some (tt, after_delay m).
Proof.
  intros [i Hi]. unfold call_, call, after_delay. rewrite Hi. reflexivity.
Qed.

Lemma press_true_impl mark after down key m m' :
  press mark after down key m = Some (true, m') → is_Some (m_impl (sender m')).
Proof.
  destruct (press_run mark after down key m) as (m1 & t & Hp & Hi & _).
  rewrite Hp. intros [= Hs <-]. rewrite Hi.
  unfold sends in Hs. destruct (m_impl (sender m)); [eauto | discriminate].
Qed.

Lemma tap_eq key m :
  tap key m =
  match keyDown key m with
  | Some (true, m1) => keyUp key (after_delay m1)
  | Some (false, m1) => Some (false, m1)
  | None => None
  end.
Proof.
  unfold tap. unfold mbind at 1. unfold M_bind.
  destruct (keyDown key m) as [[[|] m1]|] eqn:Hd; [|reflexivity..].
  simpl. unfold mbind at 1. unfold M_bind.
  rewrite keyDown_press in Hd. apply press_true_impl in Hd.
  rewrite (call_delay m1 Hd). apply bind_ret_same.
Qed.

(** ** [holdModifier] and [releaseModifier] as sweeps over the four keys *)


Lemma releaseModifier_sweep mods m :
  releaseModifier mods m = sweep keyUp mods modifier_keys true m.
Proof. reflexivity. Qed.

Lemma and_if_eq mods flag op ok m :
  and_if mods flag op ok m =
  if hasModifier mods flag then
    match op m with
    | Some (r, m') => Some (ok && r, m')
    | None => None
    end
  else Some (ok, m).
Proof.
  unfold and_if. destruct (hasModifier mods flag); [|reflexivity].
  unfold mbind, M_bind. destruct (op m) as [[r m']|]; reflexivity.
Qed.

Lemma sweep_ext op op' mods l ok m :
  (∀ key m, op key m = op' key m) →
  sweep op mods l ok m = sweep op' mods l ok m.
Proof.
  intros Hop. revert ok m. induction l as [|[flag key] l IH]; intros ok m.
  - reflexivity.
  - simpl. unfold mbind, M_bind. rewrite !and_if_eq, Hop.
    destruct (hasModifier mods flag); [|apply IH].
    destruct (op' key m) as [[r m1]|]; [apply IH|done].
Qed.

Lemma forallb_pointwise {A : Type} (f g : A → bool) (l : list A) :
  (∀ x, f x = g x) → forallb f l = forallb g l.
Proof.
  intros Hfg. induction l as [|x l IH]; simpl; [reflexivity|].
  rewrite Hfg, IH. reflexivity.
Qed.

Lemma sweep_run mark after down mods l ok m :
  (∀ key, is_syscall (mark key) = false) →
  ∃ r m' t,
    sweep (press mark after down) mods l ok m = Some (r, m') ∧
    m_impl (sender m')
    = (λ i, set_currentMods (sweep_mask after mods l (currentMods i)) i)
        <$> m_impl (sender m) ∧
    r = ok && forallb (sends (sender m)) (selected mods l) ∧
    trace (os m') = trace (os m) ++ t ∧
    attempts t = mark <$> selected mods l.
Proof.
  intros Hmark. revert ok m.
  induction l as [|[flag key] l IH]; intros ok m.
  - exists ok, m, []. simpl. split_and!; try reflexivity.
    + destruct (m_impl (sender m)) as [i|]; simpl; [|reflexivity].
      unfold sweep_mask. simpl. rewrite set_currentMods_same. reflexivity.
    + rewrite andb_true_r. reflexivity.
    + rewrite app_nil_r. reflexivity.
  - simpl. unfold mbind, M_bind. rewrite and_if_eq.
    unfold selected, sweep_mask. rewrite filter_cons. simpl.
    destruct (hasModifier mods flag) eqn:Hf; simpl.
    + destruct (press_run mark after down key m)
        as (m1 & t1 & Hp & Hi1 & Ht1 & Ha1 & _).
      rewrite Hp. simpl.
      destruct (IH (ok && sends (sender m) key) m1)
        as (r & m' & t & Hs & Hi & Hr & Ht & Ha).
      exists r, m', (mark key :: t1 ++ t). split_and!.
      * exact Hs.
      * rewrite Hi, Hi1. destruct (m_impl (sender m)); reflexivity.
      * rewrite Hr. rewrite <- andb_assoc. f_equal. f_equal.
        apply forallb_pointwise. intros k.
        apply (press_sends mark after down key m _ m1 k Hp).
      * rewrite Ht, Ht1, <- app_assoc. reflexivity.
      * change (mark key :: t1 ++ t) with ([mark key] ++ t1 ++ t).
        rewrite !attempts_app, Ha1, Ha. unfold attempts.
        rewrite filter_cons, Hmark. reflexivity.
    + apply IH.
Qed.

(** ** The mask after a sweep *)




Lemma four_modifiers_testbit n : 0 ≤ n → Z.testbit four_modifiers n = (n <? 4).
Proof.
  intros Hn. change four_modifiers with (Z.ones 4).
  destruct (Z.ltb_spec n 4).
  - apply Z.ones_spec_low. lia.
  - apply Z.ones_spec_high. lia.
Qed.








(** ** Readiness and capabilities *)

(** C8. [isReady()] is true exactly when the sender owns an [Impl] whose
    uinput descriptor is valid ([fd >= 0]); [capabilities().canInjectKeys]
    is the same boolean; and when [open] fails the constructor still returns
    a sender, one that is not ready and reports [needsUinputAccess]. *)
Theorem isReady_iff_valid_fd (s : Sender) (open_ret : Z) (w : World) :
  (isReady s = true ↔ ∃ i, m_impl s = Some i ∧ 0 ≤ fd i) ∧
  canInjectKeys (capabilities s) = isReady s ∧
  (open_ret < 0 →
   ∃ i, (Sender_new open_ret w).1 = {| m_impl := Some i |} ∧
        fd i = open_ret ∧
        isReady (Sender_new open_ret w).1 = false ∧
        needsUinputAccess (capabilities (Sender_new open_ret w).1) = true).
Proof.
  split_and!.
  - unfold isReady, has_valid_fd. destruct (m_impl s) as [i|]; split.
    + intros H. exists i. split; [reflexivity | by apply Z.leb_le].
    + intros (i' & [= <-] & H). by apply Z.leb_le.
    + discriminate.
    + intros (i' & [=] & _).
  - reflexivity.
  - intros Hneg. unfold Sender_new, Impl_new. simpl.
    destruct (Z.ltb_spec open_ret 0) as [_|]; [|lia]. simpl.
    eexists. split_and!; try reflexivity.
    unfold isReady, has_valid_fd. simpl. by apply Z.leb_gt.
Qed.

Lemma isReady_iff_valid_fd_witness :
  -1 < 0 ∧
  ∃ i, (Sender_new (-1) quiet_world).1 = {| m_impl := Some i |} ∧
       fd i = -1 ∧
       isReady (Sender_new (-1) quiet_world).1 = false ∧
       needsUinputAccess (capabilities (Sender_new (-1) quiet_world).1) = true.
Proof.
  split; [lia|].
  apply (isReady_iff_valid_fd {| m_impl := None |} (-1) quiet_world). lia.
Defined.

(** ** Text injection *)

(** C5. On the uinput backend [canInjectText] is false, and both overloads
    of [typeText] as well as [typeCharacter] return false and leave the
    machine as it was: no system call, no change to the sender. *)
Theorem typeText_does_nothing (m : Machine) (text : list Z) (utf8Text : string)
    (codepoint : Z) :
  canInjectText (capabilities (sender m)) = false ∧
  typeText_u32 text m = Some (false, m) ∧
  typeText utf8Text m = Some (false, m) ∧
  typeCharacter codepoint m = Some (false, m).
Proof. split_and!; reflexivity. Qed.

(** ** [tap] *)

Lemma after_delay_sender m : sender (after_delay m) = sender m.
Proof. unfold after_delay. destruct (m_impl (sender m)); reflexivity. Qed.

Lemma after_delay_trace m :
  trace (os (after_delay m)) = trace (os m) ++ delay_events (sender m).
Proof.
  unfold after_delay, delay_events, delay.
  destruct (m_impl (sender m)) as [i|]; simpl.
  - destruct (0 <? keyDelayUs i); simpl; [reflexivity|].
    by rewrite app_nil_r.
  - by rewrite app_nil_r.
Qed.

Lemma press_delay_events mark after down key m ok m' :
  press mark after down key m = Some (ok, m') →
  delay_events (sender m') = delay_events (sender m).
Proof.
  destruct (press_run mark after down key m) as (m1 & t & -> & Hi & _).
  intros [= _ <-]. unfold delay_events. rewrite Hi.
  destruct (m_impl (sender m)); reflexivity.
Qed.

(** C4. [tap(key)] runs [keyDown(key)]; if that fails, [tap] returns false
    and stops there, so that the trace gains the attempted press and nothing
    else (no [keyUp], no write); otherwise it sleeps for the configured
    delay, runs [keyUp(key)] and returns what [keyUp] returned. *)
Theorem tap_down_delay_up (key : Key) (m : Machine) :
  ∃ down m1,
    keyDown key m = Some (down, m1) ∧
    if down then
      ∃ up m2 t1 t2,
        keyUp key (after_delay m1) = Some (up, m2) ∧
        tap key m = Some (up, m2) ∧
        trace (os m2)
        = trace (os m) ++ (Enter_keyDown key :: t1) ++ delay_events (sender m)
            ++ (Enter_keyUp key :: t2) ∧
        attempts t1 = [] ∧ attempts t2 = []
    else
      tap key m = Some (false, m1) ∧
      trace (os m1) = trace (os m) ++ [Enter_keyDown key].
Proof.
  rewrite tap_eq, keyDown_press.
  destruct (press_run Enter_keyDown mods_after_down true key m)
    as (m1 & t1 & Hd & _ & Ht1 & Ha1 & Hfail & _).
  exists (sends (sender m) key), m1. split; [exact Hd|]. rewrite Hd.
  destruct (sends (sender m) key) eqn:Hs.
  - rewrite keyUp_press.
    destruct (press_run Enter_keyUp mods_after_up false key (after_delay m1))
      as (m2 & t2 & Hu & _ & Ht2 & Ha2 & _).
    rewrite after_delay_sender in Hu.
    exists (sends (sender m1) key), m2, t1, t2. split_and!; try done.
    rewrite Ht2, after_delay_trace, Ht1.
    rewrite (press_delay_events _ _ _ _ _ _ _ Hd).
    by rewrite <- !app_assoc.
  - destruct (Hfail eq_refl) as [-> _]. done.
Qed.

(** ** An unready sender *)

Lemma unready_sends s key :
  canInjectKeys (capabilities s) = false → sends s key = false.
Proof.
  unfold capabilities, has_valid_fd, sends, can_send. simpl.
  destruct (m_impl s) as [i|]; [|reflexivity]. by intros ->.
Qed.

Lemma press_unready mark after down key m :
  (∀ k, is_syscall (mark k) = false) →
  sends (sender m) key = false →
  fails_silently (press mark after down key m) m
    (tracked_after (after key) (sender m)).
Proof.
  intros Hmark Hs.
  destruct (press_run mark after down key m)
    as (m' & t & Hp & Hi & Ht & _ & Hfail & _).
  destruct (Hfail Hs) as [-> Hw]. rewrite Hs in Hp.
  exists m'. split_and!; try done.
  - rewrite Ht, syscalls_app. unfold syscalls at 2.
    rewrite filter_cons, Hmark. simpl. by rewrite app_nil_r.
  - by apply (press_active mark after down key m false).
Qed.

(** C1, as the code has it.  On a sender that cannot inject keys, [keyDown],
    [keyUp] and [tap] return false and make no system call.  The tracked
    mask is left alone when the key is none of the eight Shift, Ctrl, Alt
    and Super keys; for those, [keyDown] and [tap] set the bit of the key
    and [keyUp] clears it, although nothing was emitted. *)
Theorem unready_key_emission (m : Machine) (key : Key) :
  canInjectKeys (capabilities (sender m)) = false →
  fails_silently (keyDown key m) m
    (tracked_after (mods_after_down key) (sender m)) ∧
  fails_silently (keyUp key m) m
    (tracked_after (mods_after_up key) (sender m)) ∧
  fails_silently (tap key m) m
    (tracked_after (mods_after_down key) (sender m)) ∧
  (modifier_of_key key = None →
   tracked_after (mods_after_down key) (sender m) = activeModifiers (sender m) ∧
   tracked_after (mods_after_up key) (sender m) = activeModifiers (sender m)).
Proof.
  intros Hcap. pose proof (unready_sends _ key Hcap) as Hs.
  assert (fails_silently (keyDown key m) m
            (tracked_after (mods_after_down key) (sender m))) as Hdown.
  { rewrite keyDown_press. by apply press_unready. }
  split_and!.
  - exact Hdown.
  - rewrite keyUp_press. by apply press_unready.
  - rewrite tap_eq. destruct Hdown as (m' & -> & H). by exists m'.
  - intros Hkey. unfold tracked_after, mods_after_down, mods_after_up,
      activeModifiers. rewrite Hkey. by destruct (m_impl (sender m)).
Qed.

Lemma unready_key_emission_witness :
  canInjectKeys (capabilities (sender (boot (-1) quiet_world))) = false ∧
  fails_silently (keyDown Key.A (boot (-1) quiet_world))
    (boot (-1) quiet_world)
    (tracked_after (mods_after_down Key.A) (sender (boot (-1) quiet_world))).
Proof.
  split; [reflexivity|].
  apply (unready_key_emission (boot (-1) quiet_world) Key.A). reflexivity.
Defined.

(** C1 as stated fails: the sender built when [open] fails cannot inject
    keys, and yet [keyDown(ShiftLeft)] on it sets the Shift bit of the
    tracked mask while it returns false. *)
Lemma keyDown_unready_sets_modifier :
  canInjectKeys (capabilities (sender (boot (-1) quiet_world))) = false ∧
  activeModifiers (sender (boot (-1) quiet_world)) = Modifier.None ∧
  result (keyDown Key.ShiftLeft (boot (-1) quiet_world)) = Some false ∧
  mask_of (keyDown Key.ShiftLeft (boot (-1) quiet_world))
  = Some Modifier.Shift ∧
  mask_of (tap Key.ShiftLeft (boot (-1) quiet_world)) = Some Modifier.Shift.
Proof. split_and!; vm_compute; reflexivity. Qed.

(** ** [keyUp] of a modifier key *)

(** C9, as the code has it.  [keyUp] of one of the eight modifier keys
    clears the bit of that key in the tracked mask whatever happens to the
    emission.  Its result is decided by the sender alone, before any write:
    false on a sender that is not ready, true when the descriptor is valid
    and the key has a code, whatever [write] returns. *)
Theorem keyUp_clears_modifier (m : Machine) (key : Key) (bit : Modifier) :
  modifier_of_key key = Some bit →
  ∃ m', keyUp key m = Some (sends (sender m) key, m') ∧
        Z.land (activeModifiers (sender m')) bit = 0 ∧
        (isReady (sender m) = false → sends (sender m) key = false) ∧
        (∀ results,
           result (keyUp key {| sender := sender m;
                                os := {| write_results := results;
                                         trace := trace (os m) |} |})
           = Some (sends (sender m) key)).
Proof.
  intros Hkey. rewrite keyUp_press.
  destruct (press_run Enter_keyUp mods_after_up false key m)
    as (m' & t & Hp & Hi & _).
  exists m'. split_and!.
  - exact Hp.
  - unfold activeModifiers. rewrite Hi.
    destruct (m_impl (sender m)) as [i|]; simpl; [|reflexivity].
    unfold mods_after_up. rewrite Hkey. apply Modifier_clear_disjoint.
  - intros Hready. by apply unready_sends.
  - intros results. rewrite keyUp_press.
    destruct (press_run Enter_keyUp mods_after_up false key
                {| sender := sender m;
                   os := {| write_results := results; trace := trace (os m) |} |})
      as (m'' & t' & Hp' & _).
    by rewrite Hp'.
Qed.

Lemma keyUp_clears_modifier_witness :
  modifier_of_key Key.ShiftLeft = Some Modifier.Shift ∧
  ∃ m', keyUp Key.ShiftLeft (boot (-1) quiet_world)
        = Some (sends (sender (boot (-1) quiet_world)) Key.ShiftLeft, m') ∧
        Z.land (activeModifiers (sender m')) Modifier.Shift = 0.
Proof.
  split; [reflexivity|].
  destruct (keyUp_clears_modifier (boot (-1) quiet_world) Key.ShiftLeft
              Modifier.Shift eq_refl) as (m' & H1 & H2 & _).
  exists m'. split; assumption.
Defined.

(** C9 as stated fails where it says that [keyUp] returns false when the
    underlying write fails: on a ready sender both writes of
    [keyUp(ShiftLeft)] fail here, and [keyUp] returns true. *)
Lemma keyUp_true_when_write_fails :
  isReady (sender (boot 3 failing_world)) = true ∧
  result (keyUp Key.ShiftLeft (boot 3 failing_world)) = Some true ∧
  new_events (boot 3 failing_world)
    (keyUp Key.ShiftLeft (boot 3 failing_world))
  = Some [Enter_keyUp Key.ShiftLeft;
          Sys_write 3 {| ev_type := EV_KEY; ev_code := KEY_LEFTSHIFT;
                         ev_value := 0 |} (-1);
          Sys_write 3 {| ev_type := EV_SYN; ev_code := SYN_REPORT;
                         ev_value := 0 |} (-1)].
Proof. split_and!; vm_compute; reflexivity. Qed.

(** ** [releaseAllModifiers] *)

Lemma sweep_hasModifier_ext op mods mods' l ok m :
  (∀ p, p ∈ l → hasModifier mods p.1 = hasModifier mods' p.1) →
  sweep op mods l ok m = sweep op mods' l ok m.
Proof.
  revert ok m. induction l as [|[flag key] l IH]; intros ok m Hl.
  - reflexivity.
  - simpl. unfold mbind, M_bind. rewrite !and_if_eq.
    pose proof (Hl (flag, key) ltac:(left)) as Hf. simpl in Hf. rewrite Hf.
    assert (∀ ok m, sweep op mods l ok m = sweep op mods' l ok m) as IH'.
    { intros ok' m'. apply IH. intros p Hp. apply Hl. by right. }
    destruct (hasModifier mods' flag); [|apply IH'].
    destruct (op key m) as [[r m1]|]; [apply IH'|done].
Qed.

(** [releaseModifier] reads the Shift, Ctrl, Alt and Super bits of its
    argument and no other. *)
Lemma releaseModifier_low_bits mods mods' m :
  Z.land mods four_modifiers = Z.land mods' four_modifiers →
  releaseModifier mods m = releaseModifier mods' m.
Proof.
  intros Heq. rewrite !releaseModifier_sweep.
  apply sweep_hasModifier_ext. intros [flag key] Hp. simpl.
  assert (∀ k, 0 ≤ k < 4 → Z.testbit mods k = Z.testbit mods' k) as Hbits.
  { intros k Hk.
    assert (Z.testbit (Z.land mods four_modifiers) k
            = Z.testbit (Z.land mods' four_modifiers) k) as Hb by by rewrite Heq.
    rewrite !Z.land_spec, four_modifiers_testbit in Hb by lia.
    destruct (Z.ltb_spec k 4); [|lia]. by rewrite !andb_true_r in Hb. }
  unfold modifier_keys in Hp.
  repeat (apply elem_of_cons in Hp as [[= -> ->]|Hp]);
    [| | | |by apply elem_of_nil in Hp].
  - change Modifier.Shift with (2 ^ 0).
    rewrite !hasModifier_testbit by lia. apply Hbits. lia.
  - change Modifier.Ctrl with (2 ^ 1).
    rewrite !hasModifier_testbit by lia. apply Hbits. lia.
  - change Modifier.Alt with (2 ^ 2).
    rewrite !hasModifier_testbit by lia. apply Hbits. lia.
  - change Modifier.Super with (2 ^ 3).
    rewrite !hasModifier_testbit by lia. apply Hbits. lia.
Qed.

Lemma releaseModifier_run mods m :
  ∃ ok m' t,
    releaseModifier mods m = Some (ok, m') ∧
    m_impl (sender m')
    = (λ i, set_currentMods
              (sweep_mask mods_after_up mods modifier_keys (currentMods i)) i)
        <$> m_impl (sender m) ∧
    ok = forallb (sends (sender m)) (selected mods modifier_keys) ∧
    trace (os m') = trace (os m) ++ t ∧
    attempts t = Enter_keyUp <$> selected mods modifier_keys.
Proof.
  rewrite releaseModifier_sweep.
  rewrite (sweep_ext keyUp (press Enter_keyUp mods_after_up false))
    by apply keyUp_press.
  by apply sweep_run.
Qed.


(** C3, as the code has it.  [releaseAllModifiers()] is [releaseModifier]
    applied to Shift | Ctrl | Alt | Super, which [releaseModifier] cannot
    tell from the set of all six modifiers since it never reads the CapsLock
    and NumLock bits.  It attempts a key-up for ShiftLeft, CtrlLeft, AltLeft
    and SuperLeft, in this order, and for no other key. *)
Theorem releaseAllModifiers_four (m : Machine) :
  releaseAllModifiers m = releaseModifier four_modifiers m ∧
  releaseModifier all_modifiers m = releaseModifier four_modifiers m ∧
  ∃ ok m' t,
    releaseAllModifiers m = Some (ok, m') ∧
    trace (os m') = trace (os m) ++ t ∧
    attempts t = [Enter_keyUp Key.ShiftLeft; Enter_keyUp Key.CtrlLeft;
                  Enter_keyUp Key.AltLeft; Enter_keyUp Key.SuperLeft].
Proof.
  assert (releaseAllModifiers m = releaseModifier four_modifiers m) as Heq.
  { unfold releaseAllModifiers. apply bind_ret_same. }
  split_and!.
  - exact Heq.
  - by apply releaseModifier_low_bits.
  - rewrite Heq.
    destruct (releaseModifier_run four_modifiers m)
      as (ok & m' & t & Hr & _ & _ & Ht & Ha).
    by exists ok, m', t.
Qed.

(** C3 as stated fails where it says that a key-up is attempted for every
    modifier of the bit mask: on a ready sender [releaseAllModifiers()]
    makes exactly the calls below, none of them for CapsLock or NumLock. *)
Lemma releaseAllModifiers_skips_locks :
  new_events (boot 3 quiet_world) (releaseAllModifiers (boot 3 quiet_world))
  = Some [Enter_keyUp Key.ShiftLeft;
          Sys_write 3 {| ev_type := EV_KEY; ev_code := KEY_LEFTSHIFT;
                         ev_value := 0 |} 24;
          Sys_write 3 {| ev_type := EV_SYN; ev_code := SYN_REPORT;
                         ev_value := 0 |} 24;
          Enter_keyUp Key.CtrlLeft;
          Sys_write 3 {| ev_type := EV_KEY; ev_code := KEY_LEFTCTRL;
                         ev_value := 0 |} 24;
          Sys_write 3 {| ev_type := EV_SYN; ev_code := SYN_REPORT;
                         ev_value := 0 |} 24;
          Enter_keyUp Key.AltLeft;
          Sys_write 3 {| ev_type := EV_KEY; ev_code := KEY_LEFTALT;
                         ev_value := 0 |} 24;
          Sys_write 3 {| ev_type := EV_SYN; ev_code := SYN_REPORT;
                         ev_value := 0 |} 24;
          Enter_keyUp Key.SuperLeft;
          Sys_write 3 {| ev_type := EV_KEY; ev_code := KEY_LEFTMETA;
                         ev_value := 0 |} 24;
          Sys_write 3 {| ev_type := EV_SYN; ev_code := SYN_REPORT;
                         ev_value := 0 |} 24] ∧
  key_up_attempted Key.CapsLock
    <$> new_events (boot 3 quiet_world)
          (releaseAllModifiers (boot 3 quiet_world)) = Some false ∧
  key_up_attempted Key.NumLock
    <$> new_events (boot 3 quiet_world)
          (releaseAllModifiers (boot 3 quiet_world)) = Some false.
Proof. split_and!; vm_compute; reflexivity. Qed.

(** ** [combo] *)


Lemma combo_hold_failed mods key m m1 :
  holdModifier mods m = Some (false, m1) →
  combo mods key m = Some (false, m1).
Proof. intros Hh. unfold combo, mbind, M_bind. by rewrite Hh. Qed.








(** ** The tracked mask never leaves the four bits *)

Lemma only_four_bits c :
  only_four c ↔ ∀ n, 0 ≤ n → Z.testbit c n = true → n < 4.
Proof.
  unfold only_four. split.
  - intros H n Hn Hb.
    assert (Z.testbit (Z.land c (Z.lnot four_modifiers)) n = false) as Hz
      by (rewrite H; apply Z.bits_0).
    rewrite Z.land_spec, Z.lnot_spec, four_modifiers_testbit, Hb in Hz by lia.
    destruct (Z.ltb_spec n 4); [lia | discriminate].
  - intros H. apply Z.bits_inj'. intros n Hn.
    rewrite Z.land_spec, Z.lnot_spec, four_modifiers_testbit, Z.bits_0 by lia.
    destruct (Z.testbit c n) eqn:Hb; [|reflexivity].
    specialize (H n Hn Hb). destruct (Z.ltb_spec n 4); [reflexivity | lia].
Qed.

Lemma only_four_no_flag c k :
  4 ≤ k → only_four c → Z.land c (2 ^ k) = 0.
Proof.
  intros Hk H. apply Z.bits_inj'. intros n Hn.
  rewrite Z.land_spec, Z.pow2_bits_eqb, Z.bits_0 by lia.
  destruct (Z.eqb_spec k n) as [<-|]; [|apply andb_false_r].
  destruct (Z.testbit c k) eqn:Hb; [|reflexivity].
  pose proof (proj1 (only_four_bits c) H k ltac:(lia) Hb). lia.
Qed.

Lemma modifier_of_key_flag key bit :
  modifier_of_key key = Some bit → ∃ k, 0 ≤ k < 4 ∧ bit = 2 ^ k.
Proof.
  destruct key; intros [= <-];
    first [by exists 0 | by exists 1 | by exists 2 | by exists 3].
Qed.

Lemma mods_after_down_only_four key c :
  only_four c → only_four (mods_after_down key c).
Proof.
  intros H. unfold mods_after_down.
  destruct (modifier_of_key key) as [bit|] eqn:Hkey; [|exact H].
  destruct (modifier_of_key_flag key bit Hkey) as (k & Hk & ->).
  apply (proj2 (only_four_bits _)). intros n Hn.
  rewrite Modifier_or_testbit, Z.pow2_bits_eqb by lia.
  pose proof (proj1 (only_four_bits c) H n Hn) as H'.
  destruct (Z.testbit c n); [intros _; by apply H'|].
  destruct (Z.eqb_spec k n) as [<-|]; [lia | discriminate].
Qed.

Lemma mods_after_up_only_four key c :
  only_four c → only_four (mods_after_up key c).
Proof.
  intros H. unfold mods_after_up.
  destruct (modifier_of_key key) as [bit|]; [|exact H].
  apply (proj2 (only_four_bits _)). intros n Hn.
  rewrite Modifier_clear_testbit by lia.
  pose proof (proj1 (only_four_bits c) H n Hn) as H'.
  destruct (Z.testbit c n); [intros _; by apply H' | discriminate].
Qed.

Lemma preserves_ret {A : Type} (a : A) : preserves (mret a).
Proof. intros m Hm. by exists a, m. Qed.

Lemma preserves_bind {A B : Type} (c : M A) (f : A → M B) :
  preserves c → (∀ a, preserves (f a)) → preserves (c ≫= f).
Proof.
  intros Hc Hf m Hm. destruct (Hc m Hm) as (a & m1 & Hrun & Hm1).
  destruct (Hf a m1 Hm1) as (b & m2 & Hrun2 & Hm2).
  exists b, m2. unfold mbind, M_bind. by rewrite Hrun.
Qed.

Lemma preserves_ext {A : Type} (c c' : M A) :
  (∀ m, c m = c' m) → preserves c' → preserves c.
Proof. intros Heq Hc m Hm. rewrite Heq. by apply Hc. Qed.

Lemma preserves_press mark after down key :
  (∀ k c, only_four c → only_four (after k c)) →
  preserves (press mark after down key).
Proof.
  intros Hafter m (i & Hi & Hc).
  destruct (press_run mark after down key m) as (m' & t & Hp & Hi' & _).
  exists (sends (sender m) key), m'. split; [exact Hp|].
  rewrite Hi in Hi'. eexists. split; [exact Hi'|]. simpl. by apply Hafter.
Qed.

Lemma preserves_keyDown key : preserves (keyDown key).
Proof.
  apply (preserves_ext _ _ (keyDown_press key)), preserves_press.
  intros. by apply mods_after_down_only_four.
Qed.

Lemma preserves_keyUp key : preserves (keyUp key).
Proof.
  apply (preserves_ext _ _ (keyUp_press key)), preserves_press.
  intros. by apply mods_after_up_only_four.
Qed.

Lemma preserves_call_ f : preserves (call_ f).
Proof.
  intros m (i & Hi & Hc). unfold call_, call. rewrite Hi.
  eexists _, _. split; [reflexivity|]. by exists i.
Qed.

Lemma preserves_has_impl : preserves has_impl.
Proof. intros m Hm. eexists _, m. by split. Qed.

Lemma preserves_const_method {A : Type} (f : Sender → A) :
  preserves (const_method f).
Proof. intros m Hm. eexists _, m. by split. Qed.

Lemma preserves_assign_keyDelayUs v : preserves (assign_keyDelayUs v).
Proof.
  intros m (i & Hi & Hc). unfold assign_keyDelayUs. rewrite Hi.
  eexists _, _. split; [reflexivity|]. eexists. by split.
Qed.

Lemma preserves_tap key : preserves (tap key).
Proof.
  unfold tap. apply preserves_bind; [apply preserves_keyDown|].
  intros [|]; simpl; [|apply preserves_ret].
  apply preserves_bind; [apply preserves_call_|]. intros _.
  apply preserves_bind; [apply preserves_keyUp | apply preserves_ret].
Qed.

Lemma preserves_and_if mods flag op ok :
  preserves op → preserves (and_if mods flag op ok).
Proof.
  intros Hop. unfold and_if. destruct (hasModifier mods flag).
  - apply preserves_bind; [exact Hop | intros; apply preserves_ret].
  - apply preserves_ret.
Qed.

Lemma preserves_holdModifier mods : preserves (holdModifier mods).
Proof.
  unfold holdModifier.
  repeat (apply preserves_bind;
          [first [apply preserves_ret
                 | apply preserves_and_if, preserves_keyDown] | intros ?]).
  apply preserves_ret.
Qed.

Lemma preserves_releaseModifier mods : preserves (releaseModifier mods).
Proof.
  unfold releaseModifier.
  repeat (apply preserves_bind;
          [first [apply preserves_ret
                 | apply preserves_and_if, preserves_keyUp] | intros ?]).
  apply preserves_ret.
Qed.

Lemma preserves_releaseAllModifiers : preserves releaseAllModifiers.
Proof.
  unfold releaseAllModifiers.
  apply preserves_bind; [apply preserves_releaseModifier|].
  intros; apply preserves_ret.
Qed.

Lemma preserves_combo mods key : preserves (combo mods key).
Proof.
  unfold combo. apply preserves_bind; [apply preserves_holdModifier|].
  intros [|]; simpl; [|apply preserves_ret].
  apply preserves_bind; [apply preserves_call_|]. intros _.
  apply preserves_bind; [apply preserves_tap|]. intros ok.
  apply preserves_bind; [apply preserves_call_|]. intros _.
  apply preserves_bind; [apply preserves_releaseModifier|]. intros _.
  apply preserves_ret.
Qed.

Lemma preserves_discard {A : Type} (c : M A) : preserves c → preserves (discard c).
Proof.
  intros Hc. unfold discard.
  apply preserves_bind; [exact Hc | intros; apply preserves_ret].
Qed.

Lemma preserves_run_op o : preserves (run_op o).
Proof.
  destruct o; simpl;
    try (apply preserves_discard;
         first [ apply preserves_const_method | apply preserves_keyDown
               | apply preserves_keyUp | apply preserves_tap
               | apply preserves_holdModifier | apply preserves_releaseModifier
               | apply preserves_releaseAllModifiers
               | apply preserves_combo | apply preserves_ret ]).
  - unfold flush. apply preserves_bind; [apply preserves_has_impl|].
    intros [|]; [apply preserves_call_ | apply preserves_ret].
  - unfold setKeyDelay. apply preserves_bind; [apply preserves_has_impl|].
    intros [|]; [apply preserves_assign_keyDelayUs | apply preserves_ret].
Qed.

Lemma preserves_run_ops ops : preserves (run_ops ops).
Proof.
  induction ops as [|o ops IH]; simpl; [apply preserves_ret|].
  apply preserves_bind; [apply preserves_run_op | intros _; exact IH].
Qed.

Lemma boot_tracked_ok open_ret w : tracked_ok (boot open_ret w).
Proof.
  unfold boot, Sender_new, Impl_new. simpl.
  destruct (open_ret <? 0); eexists; split; try reflexivity.
Qed.

Lemma press_plain_mask mark after down key m :
  (∀ c, after key c = c) →
  mask_of (press mark after down key m) = Some (activeModifiers (sender m)).
Proof.
  intros Hafter.
  destruct (press_run mark after down key m) as (m' & t & Hp & Hi & _).
  rewrite Hp. unfold mask_of, activeModifiers. simpl. rewrite Hi.
  destruct (m_impl (sender m)); simpl; [|reflexivity]. by rewrite Hafter.
Qed.

(** C10. Whatever calls are made on a sender after its construction, every
    one of them is defined and the mask that [activeModifiers()] returns has
    no bit outside Shift, Ctrl, Alt and Super: the CapsLock and NumLock bits
    stay clear.  [keyDown] and [keyUp] of [Key::CapsLock] and of
    [Key::NumLock] leave the mask as it was, on every sender. *)
Theorem activeModifiers_only_four (open_ret : Z) (w : World)
    (ops : list SenderOp) (m0 : Machine) :
  (∃ m', run_ops ops (boot open_ret w) = Some (tt, m') ∧
         only_four (activeModifiers (sender m')) ∧
         Z.land (activeModifiers (sender m')) Modifier.CapsLock = 0 ∧
         Z.land (activeModifiers (sender m')) Modifier.NumLock = 0) ∧
  mask_of (keyDown Key.CapsLock m0) = Some (activeModifiers (sender m0)) ∧
  mask_of (keyUp Key.CapsLock m0) = Some (activeModifiers (sender m0)) ∧
  mask_of (keyDown Key.NumLock m0) = Some (activeModifiers (sender m0)) ∧
  mask_of (keyUp Key.NumLock m0) = Some (activeModifiers (sender m0)).
Proof.
  split_and!.
  - destruct (preserves_run_ops ops (boot open_ret w) (boot_tracked_ok _ _))
      as ([] & m' & Hrun & i & Hi & Hc).
    exists m'. unfold activeModifiers. rewrite Hi. split_and!; try done.
    + by apply (only_four_no_flag _ 4).
    + by apply (only_four_no_flag _ 5).
  - rewrite keyDown_press. by apply press_plain_mask.
  - rewrite keyUp_press. by apply press_plain_mask.
  - rewrite keyDown_press. by apply press_plain_mask.
  - rewrite keyUp_press. by apply press_plain_mask.
Qed.

(** ** Key names *)

Lemma name_of_elem table key n :
  name_of table key = Some n → (key, n) ∈ table.
Proof.
  induction table as [|[k0 n0] table IH]; simpl; [discriminate|].
  destruct (decide (k0 = key)) as [->|].
  - intros [= ->]. left.
  - intros H. right. by apply IH.
Qed.

(** In a table whose names differ pairwise once case is folded, the lookup
    by name finds the key back from the name the table gives it. *)
Lemma key_named_name_of table key n :
  NoDup ((λ p, toLower p.2) <$> table) →
  name_of table key = Some n → key_named table n = Some key.
Proof.
  induction table as [|[k0 n0] table IH]; simpl; [discriminate|].
  intros Hnd Hname. apply NoDup_cons in Hnd as [Hhead Hnd].
  destruct (decide (k0 = key)) as [->|Hne].
  - injection Hname as ->. by rewrite String.eqb_refl.
  - destruct (String.eqb_spec (toLower n0) (toLower n)) as [Heq|_].
    + exfalso. apply Hhead. rewrite Heq.
      apply name_of_elem in Hname.
      by apply (list_elem_of_fmap_2 (λ p : Key * string, toLower p.2) _ _ Hname).
    + by apply IH.
Qed.

Lemma key_names_distinct : NoDup ((λ p, toLower p.2) <$> key_names).
Proof. apply (bool_decide_unpack _). vm_compute. exact I. Qed.

Lemma key_names_total key :
  key ≠ Key.Unknown → ∃ n, name_of key_names key = Some n.
Proof. destruct key; intros H; [done | by eexists ..]. Qed.

(** C6. For every key other than [Unknown], [stringToKey] finds the key
    back from its canonical name: [stringToKey(keyToString(k)) == k]. *)
Theorem stringToKey_keyToString (key : Key) :
  key ≠ Key.Unknown → stringToKey (keyToString key) = key.
Proof.
  intros Hkey. destruct (key_names_total key Hkey) as [n Hn].
  unfold keyToString, stringToKey. rewrite Hn.
  by rewrite (key_named_name_of key_names key n key_names_distinct Hn).
Qed.

Lemma stringToKey_keyToString_witness :
  Key.Escape ≠ Key.Unknown ∧ stringToKey (keyToString Key.Escape) = Key.Escape.
Proof.
  split; [discriminate|]. apply (stringToKey_keyToString Key.Escape).
  discriminate.
Defined.

(** The scenarios of the C API test: ["A"] and back, and a name that no key
    has. *)
Example stringToKey_scenarios :
  stringToKey "A" = Key.A ∧ keyToString Key.A = "A" ∧
  stringToKey "no-such-key" = Key.Unknown ∧
  keyToString Key.Unknown = "Unknown" ∧
  stringToKey "ESC" = Key.Escape.
Proof. split_and!; reflexivity. Qed.

(** ** The C boundary *)

(** C7. Called with a null sender handle, each entry point of the sender
    that can fail returns false, touches neither the handle nor the world
    and leaves in the last-error slot, over whatever was there, a
    description that names ["sender"]; a null [utf8_text] is turned down the
    same way with a description that names ["utf8_text"], and a null
    listener callback with one that names ["callback"]. *)
Theorem null_argument_rejected (p : CApi.Process) (s : Sender)
    (l : CApi.Listener) (install : CApi.listener_cb → World → bool * World)
    (key : Key) (mods : Modifier) (text : option string) (codepoint : Z) :
  CApi.rejected (CApi.typr_io_sender_key_down None key p) None p "sender" ∧
  CApi.rejected (CApi.typr_io_sender_key_up None key p) None p "sender" ∧
  CApi.rejected (CApi.typr_io_sender_tap None key p) None p "sender" ∧
  CApi.rejected (CApi.typr_io_sender_hold_modifier None mods p) None p
    "sender" ∧
  CApi.rejected (CApi.typr_io_sender_release_modifier None mods p) None p
    "sender" ∧
  CApi.rejected (CApi.typr_io_sender_release_all_modifiers None p) None p
    "sender" ∧
  CApi.rejected (CApi.typr_io_sender_combo None mods key p) None p "sender" ∧
  CApi.rejected (CApi.typr_io_sender_type_text_utf8 None text p) None p
    "sender" ∧
  CApi.rejected (CApi.typr_io_sender_type_character None codepoint p) None p
    "sender" ∧
  CApi.rejected (CApi.typr_io_sender_type_text_utf8 (Some s) None p) (Some s)
    p "utf8_text" ∧
  CApi.rejected (CApi.typr_io_listener_start install (Some l) None p) (Some l)
    p "callback".
Proof.
  split_and!; try (eexists; split; reflexivity).
Qed.
